(** * Template pipeline: i18n parameter formatting, the phase driver and emission

    A shallow embedding of
    - [phases/format_i18n_params.ts]: [formatI18nParams], [formatParams],
      [formatParamValues], [formatValue];
    - the pipeline driver ([phases], [transform]) and the emitter
      ([emitTemplateFn], [emitChildViews], [emitView], [maybeGenerateRfBlock],
      [emitHostBindingFunction]);
    followed by the properties of these functions. *)

From Stdlib Require Import List ZArith NArith Bool Lia String Ascii.
From Stdlib Require Import DecimalString Permutation Sorted.
Import ListNotations.

Set Implicit Arguments.
Set Warnings "-register-all".

(** ** JavaScript strings

    A JavaScript string is a sequence of UTF-16 code units; comparison with
    [<] (which the default [Array.prototype.sort] uses) is lexicographic on
    the code units, a proper prefix being smaller. *)

Module JsString.

Definition code_unit := N.
Definition t := list code_unit.

(** An ASCII literal as a JavaScript string. *)
Definition lit (s : string) : t := map N_of_ascii (list_ascii_of_string s).

(** [a < b] on strings. *)
Fixpoint ltb (a b : t) : bool :=
  match a, b with
  | [], [] => false
  | [], _ :: _ => true
  | _ :: _, [] => false
  | x :: a', y :: b' =>
      if (x <? y)%N then true
      else if (y <? x)%N then false
      else ltb a' b'
  end.

Definition eqb (a b : t) : bool :=
  if list_eq_dec N.eq_dec a b then true else false.

(** [Array.prototype.join]. *)
Fixpoint join (sep : t) (parts : list t) : t :=
  match parts with
  | [] => []
  | [p] => p
  | p :: rest => p ++ sep ++ join sep rest
  end.

(** [String(n)] for an integer [n]: its decimal digits, with a leading
    minus sign when negative. *)
Definition ofNumber (n : Z) : t := lit (NilZero.string_of_int (Z.to_int n)).

End JsString.

Definition jsstring : Type := JsString.t.
Definition lit (s : string) : jsstring := JsString.lit s.

(** ** I18n parameter values ([ir.I18nParamValue], [ir.I18nParamValueFlags]) *)

Module I18n.

(** Modelled from the spec: the enum [ir.I18nParamValueFlags] is declared in
    the [ir] package, which is not part of the sources at hand.  The spec
    lists the four bit-flags element-tag / template-tag / open-tag /
    close-tag; they are the four low bits, in that order. *)
Definition ElementTag : Z := 1.
Definition TemplateTag : Z := 2.
Definition OpenTag : Z := 4.
Definition CloseTag : Z := 8.

(** [value.value] is a [string|number]. *)
Inductive raw_value : Type :=
| StrValue (s : jsstring)
| NumValue (n : Z).

(** Modelled from the spec: the interface [ir.I18nParamValue] (a marker
    value, bit-flags, and an optional sub-template index). *)
Record I18nParamValue : Type := mkValue {
  value : raw_value;
  subTemplateIndex : option Z;
  flags : Z;
}.

(** [flags & mask], used as a condition: true when the result is not 0. *)
Definition has (fl mask : Z) : bool := negb (Z.land fl mask =? 0)%Z.

(** A value interpolated in a template literal. *)
Definition show (v : raw_value) : jsstring :=
  match v with
  | StrValue s => s
  | NumValue n => JsString.ofNumber n
  end.

Definition ESCAPE : jsstring := [65533%N].
Definition ELEMENT_MARKER : jsstring := lit "#".
Definition TEMPLATE_MARKER : jsstring := lit "*".
Definition TAG_CLOSE_MARKER : jsstring := lit "/".
Definition CONTEXT_MARKER : jsstring := lit ":".
Definition LIST_START_MARKER : jsstring := lit "[".
Definition LIST_END_MARKER : jsstring := lit "]".
Definition LIST_DELIMITER : jsstring := lit "|".

(** The three locals of [formatValue]. *)
Definition tagMarker (v : I18nParamValue) : jsstring :=
  if has (flags v) ElementTag then ELEMENT_MARKER
  else if has (flags v) TemplateTag then TEMPLATE_MARKER
  else [].

Definition closeMarker (v : I18nParamValue) : jsstring :=
  match tagMarker v with
  | [] => []
  | _ :: _ => if has (flags v) CloseTag then TAG_CLOSE_MARKER else []
  end.

Definition context (v : I18nParamValue) : jsstring :=
  match subTemplateIndex v with
  | None => []
  | Some i => CONTEXT_MARKER ++ JsString.ofNumber i
  end.

Definition formatValue (v : I18nParamValue) : jsstring :=
  if has (flags v) OpenTag && has (flags v) CloseTag then
    ESCAPE ++ tagMarker v ++ show (value v) ++ context v ++ ESCAPE
      ++ ESCAPE ++ closeMarker v ++ tagMarker v ++ show (value v) ++ context v ++ ESCAPE
  else
    ESCAPE ++ closeMarker v ++ tagMarker v ++ show (value v) ++ context v ++ ESCAPE.

(** [formatParamValues]: [None] is [null]. *)
Definition formatParamValues (values : list I18nParamValue) : option jsstring :=
  match values with
  | [] => None
  | _ =>
      let serializedValues := map formatValue values in
      match serializedValues with
      | [s] => Some s
      | _ => Some (LIST_START_MARKER ++ JsString.join LIST_DELIMITER serializedValues
                     ++ LIST_END_MARKER)
      end
  end.

End I18n.

(** ** The output AST ([o.Expression], [o.Statement])

    Modelled from the spec: the output AST is declared in [output_ast], which
    is not part of the sources at hand.  Only the nodes that the formatting
    phase and the emitter build are given a constructor of their own; a
    statement produced by an earlier phase is carried as it is. *)

Module O.

Inductive LiteralValue : Type :=
| LitNull
| LitString (s : jsstring)
| LitNumber (n : Z).

Inductive BinaryOperator : Type :=
| BitwiseAnd.

Inductive Expression : Type :=
| ReadVarExpr (name : jsstring)
| LiteralExpr (v : LiteralValue)
| BinaryOperatorExpr (op : BinaryOperator) (lhs rhs : Expression).

Inductive Statement : Type :=
| ReifiedStmt (code : jsstring)
| IfStmt (condition : Expression) (trueCase : list Statement)
| DeclareFunctionStmt (name : option jsstring) (params : list jsstring)
    (statements : list Statement).

Record FunctionExpr : Type := mkFn {
  params : list jsstring;
  statements : list Statement;
  name : option jsstring;
}.

Definition variable (name : jsstring) : Expression := ReadVarExpr name.

Definition literal (v : LiteralValue) : Expression := LiteralExpr v.

Definition ifStmt (condition : Expression) (thenClause : list Statement) : Statement :=
  IfStmt condition thenClause.

Definition fn (params : list jsstring) (body : list Statement) (name : jsstring)
  : FunctionExpr :=
  mkFn params body (Some name).

(** The caller passes [viewFn.name!]; the [!] is gone at run time, so that
    what arrives is [viewFn.name] as it is. *)
Definition toDeclStmt (f : FunctionExpr) (name : option jsstring) : Statement :=
  DeclareFunctionStmt name (params f) (statements f).

End O.

(** ** [Map<string, V>]

    A JavaScript [Map] keeps its entries in insertion order; [set] on a key
    that is present replaces the value where it stands. *)

Module JsMap.

Definition t (V : Type) : Type := list (jsstring * V).

Definition empty {V} : t V := [].

Fixpoint set {V} (m : t V) (k : jsstring) (v : V) : t V :=
  match m with
  | [] => [(k, v)]
  | (k', v') :: m' =>
      if JsString.eqb k' k then (k, v) :: m' else (k', v') :: set m' k v
  end.

Fixpoint get {V} (m : t V) (k : jsstring) : option V :=
  match m with
  | [] => None
  | (k', v') :: m' => if JsString.eqb k' k then Some v' else get m' k
  end.

Definition size {V} (m : t V) : nat := List.length m.

Definition keys {V} (m : t V) : list jsstring := map fst m.

(** The invariant of a [Map]: no key twice. *)
Definition wf {V} (m : t V) : Prop := NoDup (keys m).

End JsMap.

(** ** [Array.prototype.sort()] without a comparison function

    The elements are compared by their string forms ([ToString]), with [<]
    on strings; the sort is stable. *)

Section DefaultSort.
Variable A : Type.
Variable toString : A -> jsstring.

(** [x] may stay in front of [y]: [ToString y < ToString x] is false. *)
Definition keeps (x y : A) : bool := negb (JsString.ltb (toString y) (toString x)).

Fixpoint insert (x : A) (l : list A) : list A :=
  match l with
  | [] => [x]
  | y :: l' => if keeps x y then x :: l else y :: insert x l'
  end.

Fixpoint sort (l : list A) : list A :=
  match l with
  | [] => []
  | x :: l' => insert x (sort l')
  end.
End DefaultSort.

Module I18nFormat.
Import I18n.

(** [ToString] of an [I18nParamValue]: it is a plain object. *)
Definition objectToString (_ : I18nParamValue) : jsstring := lit "[object Object]".

(** [ToString] of an array is [join(",")] of the string forms of its
    elements; an entry of the map is the array [[placeholder, values]]. *)
Definition entryToString (e : jsstring * list I18nParamValue) : jsstring :=
  JsString.join (lit ",")
    [fst e; JsString.join (lit ",") (map objectToString (snd e))].

Definition literalOf (s : option jsstring) : O.Expression :=
  match s with
  | None => O.literal O.LitNull
  | Some s => O.literal (O.LitString s)
  end.

(** The body of the loop of [formatParams]. *)
Definition formatParams_step (result : JsMap.t O.Expression)
    (e : jsstring * list I18nParamValue) : JsMap.t O.Expression :=
  let '(placeholder, placeholderValues) := e in
  match formatParamValues placeholderValues with
  | Some _ =>
      JsMap.set result placeholder (literalOf (formatParamValues placeholderValues))
  | None => result
  end.

Definition formatParams (params : JsMap.t (list I18nParamValue))
  : JsMap.t O.Expression :=
  fold_left formatParams_step (sort entryToString params) JsMap.empty.

End I18nFormat.

(** ** The intermediate representation ([ir]) and the compilation jobs *)

Module Ir.
Import I18n.

(** Modelled from the spec: the enum [ir.OpKind] has dozens of members and is
    declared in the [ir] package, which is not part of the sources at hand.
    The two kinds that the code at hand names are kept apart; [OtherKind n]
    stands for any other member. *)
Inductive OpKind : Type :=
| Statement
| ExtractedMessage
| OtherKind (n : nat).

Definition OpKind_eqb (a b : OpKind) : bool :=
  match a, b with
  | Statement, Statement => true
  | ExtractedMessage, ExtractedMessage => true
  | OtherKind n, OtherKind m => Nat.eqb n m
  | _, _ => false
  end.

(** The fields of an extracted-message operation that the formatting phase
    reads and writes. *)
Record ExtractedMessageOp : Type := mkMessage {
  isRoot : bool;
  params : JsMap.t (list I18nParamValue);
  postprocessingParams : JsMap.t (list I18nParamValue);
  formattedParams : option (JsMap.t O.Expression);
  formattedPostprocessingParams : option (JsMap.t O.Expression);
  needsPostprocessing : bool;
}.

Inductive Op : Type :=
| StatementOp (statement : O.Statement)
| ExtractedMessageOp_ (m : ExtractedMessageOp)
| OtherOp (n : nat).

Definition kind (op : Op) : OpKind :=
  match op with
  | StatementOp _ => Statement
  | ExtractedMessageOp_ _ => ExtractedMessage
  | OtherOp n => OtherKind n
  end.

Definition XrefId : Type := nat.

(** Modelled from the spec: a compilation unit has a create list and an
    update list of operations, a back-reference to its parent view (null for
    the root) and a unique [xref]; the emitter also reads its [fnName]. *)
Record ViewCompilationUnit : Type := mkView {
  xref : XrefId;
  parent : option XrefId;
  fnName : option jsstring;
  create : list Op;
  update : list Op;
}.

(** Modelled from the spec: a template job owns its root view and one unit
    per embedded view; [units] enumerates all of them, the root first. *)
Record ComponentCompilationJob : Type := mkJob {
  root : ViewCompilationUnit;
  embedded : list ViewCompilationUnit;
}.

Definition units (job : ComponentCompilationJob) : list ViewCompilationUnit :=
  root job :: embedded job.

(** Modelled from the spec: a host-binding job has a single unit, with no
    parent. *)
Record HostBindingCompilationUnit : Type := mkHostUnit {
  host_xref : XrefId;
  host_fnName : option jsstring;
  host_create : list Op;
  host_update : list Op;
}.

Record HostBindingCompilationJob : Type := mkHostJob {
  host_root : HostBindingCompilationUnit;
}.

End Ir.

(** ** Flow of control: mutation of a shared object, and exceptions *)

Inductive Error : Type :=
| ViewUnnamed (xref : Ir.XrefId)
| CreateOpNotCompiled (kind : Ir.OpKind)
| UpdateOpNotCompiled (kind : Ir.OpKind)
| HostBindingUnnamed
| PhaseError (message : jsstring).

(** What a call does: it returns a value, or it throws; [NoAnswer] is a
    recursion that was cut before it came to either. *)
Inductive outcome (A : Type) : Type :=
| Returned (a : A)
| Thrown (e : Error)
| NoAnswer.

Arguments Returned {A} a.
Arguments Thrown {A} e.
Arguments NoAnswer {A}.

Definition obind {A B} (r : outcome A) (k : A -> outcome B) : outcome B :=
  match r with
  | Returned a => k a
  | Thrown e => Thrown e
  | NoAnswer => NoAnswer
  end.

(** A computation on a mutable object of type [S]: what it did to the
    object before throwing stays done. *)
Definition M (S A : Type) : Type := S -> outcome A * S.

Definition ret {S A} (a : A) : M S A := fun s => (Returned a, s).

Definition bind {S A B} (m : M S A) (k : A -> M S B) : M S B :=
  fun s =>
    match m s with
    | (Returned a, s') => k a s'
    | (Thrown e, s') => (Thrown e, s')
    | (NoAnswer, s') => (NoAnswer, s')
    end.

(** A computation that touches no object. *)
Definition pure_call {S A} (r : outcome A) : M S A := fun s => (r, s).

(** A mutation that cannot throw. *)
Definition mutate {S} (f : S -> S) : M S unit := fun s => (Returned tt, f s).

Declare Scope js_scope.
Delimit Scope js_scope with js.
Notation "x <- m ;; k" := (bind m (fun x => k))
  (at level 61, m at next level, right associativity) : js_scope.
Notation "m ;;; k" := (bind m (fun _ => k))
  (at level 61, right associativity) : js_scope.

(** [for (const x of l) body(x)]. *)
Fixpoint forEach {S A} (l : list A) (body : A -> M S unit) : M S unit :=
  match l with
  | [] => ret tt
  | x :: l' => bind (body x) (fun _ => forEach l' body)
  end.

(** ** The phase [formatI18nParams] *)

Module FormatPhase.
Import I18n I18nFormat Ir.

(** The loop over [op.params] that raises the flag. *)
Definition anyMultiple (init : bool) (params : JsMap.t (list I18nParamValue)) : bool :=
  fold_left (fun needs e => if 1 <? List.length (snd e) then true else needs)
    params init.

Definition formatMessage (m : ExtractedMessageOp) : ExtractedMessageOp :=
  {| isRoot := isRoot m;
     params := params m;
     postprocessingParams := postprocessingParams m;
     formattedParams := Some (formatParams (params m));
     formattedPostprocessingParams := Some (formatParams (postprocessingParams m));
     needsPostprocessing :=
       anyMultiple (0 <? JsMap.size (postprocessingParams m)) (params m) |}.

Definition formatOp (op : Op) : Op :=
  match op with
  | ExtractedMessageOp_ m => if isRoot m then ExtractedMessageOp_ (formatMessage m) else op
  | _ => op
  end.

Definition formatUnit (unit : ViewCompilationUnit) : ViewCompilationUnit :=
  {| xref := xref unit;
     parent := parent unit;
     fnName := fnName unit;
     create := map formatOp (create unit);
     update := update unit |}.

Definition formatI18nParams (job : ComponentCompilationJob) : ComponentCompilationJob :=
  {| root := formatUnit (root job);
     embedded := map formatUnit (embedded job) |}.

End FormatPhase.

(** ** The pipeline driver *)

Module Pipeline.

(** Modelled from the spec: [CompilationJobKind], declared with the jobs;
    a job is a template job or a host-binding job, and a phase applies to
    one of the two or to both. *)
Inductive Kind : Type :=
| Tmpl
| Host
| Both.

Definition Kind_eqb (a b : Kind) : bool :=
  match a, b with
  | Tmpl, Tmpl | Host, Host | Both, Both => true
  | _, _ => false
  end.

(** The phase functions that the driver imports, by name. *)
Inductive PhaseFn : Type :=
| removeContentSelectors
| parseHostStyleProperties
| emitNamespaceChanges
| specializeStyleBindings
| specializeBindings
| propagateI18nBlocks
| wrapI18nIcus
| extractAttributes
| parseExtractedStyles
| removeEmptyBindings
| collapseSingletonInterpolations
| orderOps
| generateConditionalExpressions
| createPipes
| configureDeferInstructions
| extractI18nText
| extractI18nICUs
| applyI18nExpressions
| createVariadicPipes
| generatePureLiteralStructures
| generateProjectionDefs
| generateVariables
| saveAndRestoreView
| deleteAnyCasts
| resolveDollarEvent
| generateRepeaterDerivedVars
| generateTrackVariables
| resolveNames
| resolveDeferTargetNames
| optimizeTrackFns
| resolveContexts
| resolveSanitizers
| liftLocalRefs
| generateNullishCoalesceExpressions
| expandSafeReads
| generateTemporaryVariables
| allocateSlots
| extractI18nMessages
| resolveI18nElementPlaceholders
| resolveI18nExpressionPlaceholders
| propogateI18nPlaceholders
| formatI18nParams
| generateTrackFns
| collectI18nConsts
| collectConstExpressions
| collectElementConsts
| assignI18nSlotDependencies
| countVariables
| generateAdvance
| optimizeVariables
| nameFunctionsAndVariables
| mergeNextContextExpressions
| generateNgContainerOps
| collapseEmptyInstructions
| disableBindings
| extractPureFunctions
| reify
| chain.

Record Phase : Type := mkPhase {
  kind : Kind;
  fn : PhaseFn;
}.

Definition phases : list Phase :=
  [
    {| kind := Tmpl; fn := removeContentSelectors |};
    {| kind := Host; fn := parseHostStyleProperties |};
    {| kind := Tmpl; fn := emitNamespaceChanges |};
    {| kind := Both; fn := specializeStyleBindings |};
    {| kind := Both; fn := specializeBindings |};
    {| kind := Tmpl; fn := propagateI18nBlocks |};
    {| kind := Tmpl; fn := wrapI18nIcus |};
    {| kind := Both; fn := extractAttributes |};
    {| kind := Both; fn := parseExtractedStyles |};
    {| kind := Tmpl; fn := removeEmptyBindings |};
    {| kind := Both; fn := collapseSingletonInterpolations |};
    {| kind := Both; fn := orderOps |};
    {| kind := Tmpl; fn := generateConditionalExpressions |};
    {| kind := Tmpl; fn := createPipes |};
    {| kind := Tmpl; fn := configureDeferInstructions |};
    {| kind := Tmpl; fn := extractI18nText |};
    {| kind := Tmpl; fn := extractI18nICUs |};
    {| kind := Tmpl; fn := applyI18nExpressions |};
    {| kind := Tmpl; fn := createVariadicPipes |};
    {| kind := Both; fn := generatePureLiteralStructures |};
    {| kind := Tmpl; fn := generateProjectionDefs |};
    {| kind := Tmpl; fn := generateVariables |};
    {| kind := Tmpl; fn := saveAndRestoreView |};
    {| kind := Tmpl; fn := deleteAnyCasts |};
    {| kind := Both; fn := resolveDollarEvent |};
    {| kind := Tmpl; fn := generateRepeaterDerivedVars |};
    {| kind := Tmpl; fn := generateTrackVariables |};
    {| kind := Both; fn := resolveNames |};
    {| kind := Tmpl; fn := resolveDeferTargetNames |};
    {| kind := Tmpl; fn := optimizeTrackFns |};
    {| kind := Both; fn := resolveContexts |};
    {| kind := Tmpl; fn := resolveSanitizers |};
    {| kind := Tmpl; fn := liftLocalRefs |};
    {| kind := Both; fn := generateNullishCoalesceExpressions |};
    {| kind := Both; fn := expandSafeReads |};
    {| kind := Both; fn := generateTemporaryVariables |};
    {| kind := Tmpl; fn := allocateSlots |};
    {| kind := Tmpl; fn := extractI18nMessages |};
    {| kind := Tmpl; fn := resolveI18nElementPlaceholders |};
    {| kind := Tmpl; fn := resolveI18nExpressionPlaceholders |};
    {| kind := Tmpl; fn := propogateI18nPlaceholders |};
    {| kind := Tmpl; fn := formatI18nParams |};
    {| kind := Tmpl; fn := generateTrackFns |};
    {| kind := Tmpl; fn := collectI18nConsts |};
    {| kind := Tmpl; fn := collectConstExpressions |};
    {| kind := Both; fn := collectElementConsts |};
    {| kind := Tmpl; fn := assignI18nSlotDependencies |};
    {| kind := Both; fn := countVariables |};
    {| kind := Tmpl; fn := generateAdvance |};
    {| kind := Both; fn := optimizeVariables |};
    {| kind := Both; fn := nameFunctionsAndVariables |};
    {| kind := Tmpl; fn := mergeNextContextExpressions |};
    {| kind := Tmpl; fn := generateNgContainerOps |};
    {| kind := Tmpl; fn := collapseEmptyInstructions |};
    {| kind := Tmpl; fn := disableBindings |};
    {| kind := Both; fn := extractPureFunctions |};
    {| kind := Both; fn := reify |};
    {| kind := Both; fn := chain |}
  ].

(** The test of the loop of [transform]. *)
Definition applies (jobKind : Kind) (phase : Phase) : bool :=
  Kind_eqb (kind phase) jobKind || Kind_eqb (kind phase) Both.

Section Driver.
(** The job object, and what a call of each phase function does to it. *)
Variable Job : Type.
Variable call : PhaseFn -> M Job unit.

Fixpoint runPhases (ps : list Phase) (jobKind : Kind) : M Job unit :=
  match ps with
  | [] => ret tt
  | phase :: rest =>
      if applies jobKind phase
      then bind (call (fn phase)) (fun _ => runPhases rest jobKind)
      else runPhases rest jobKind
  end.

Definition transform (jobKind : Kind) : M Job unit := runPhases phases jobKind.

(** The same calls, each one also written down in a journal kept next to
    the job. *)
Definition journaled (f : PhaseFn) : M (Job * list PhaseFn) unit :=
  fun s => let '(r, job') := call f (fst s) in (r, (job', snd s ++ [f])).
End Driver.

End Pipeline.

(** ** Emission *)

Module Emit.
Import Ir.

(** Modelled from the spec: of the shared constant pool, the emitter only
    touches the list of statements, by [push]. *)
Record ConstantPool : Type := mkPool {
  statements : list O.Statement;
}.

Definition push (stmt : O.Statement) : M ConstantPool unit :=
  mutate (fun pool => mkPool (statements pool ++ [stmt])).

(** The two loops of [emitView] and of [emitHostBindingFunction]: the
    statements of the operations, in order; the first operation that is
    not a statement throws. *)
Fixpoint collectStatements (notCompiled : OpKind -> Error) (ops : list Op)
  : outcome (list O.Statement) :=
  match ops with
  | [] => Returned []
  | op :: rest =>
      match op with
      | StatementOp statement =>
          obind (collectStatements notCompiled rest)
            (fun stmts => Returned (statement :: stmts))
      | _ => Thrown (notCompiled (kind op))
      end
  end.

Definition maybeGenerateRfBlock (flag : Z) (stmts : list O.Statement)
  : list O.Statement :=
  match stmts with
  | [] => []
  | _ :: _ =>
      [O.ifStmt
         (O.BinaryOperatorExpr O.BitwiseAnd (O.variable (lit "rf"))
            (O.literal (O.LitNumber flag)))
         stmts]
  end.

Definition emitView (view : ViewCompilationUnit) : outcome O.FunctionExpr :=
  match fnName view with
  | None => Thrown (ViewUnnamed (xref view))
  | Some name =>
      obind (collectStatements CreateOpNotCompiled (create view)) (fun createStatements =>
      obind (collectStatements UpdateOpNotCompiled (update view)) (fun updateStatements =>
        let createCond := maybeGenerateRfBlock 1 createStatements in
        let updateCond := maybeGenerateRfBlock 2 updateStatements in
        Returned (O.fn [lit "rf"; lit "ctx"] (createCond ++ updateCond) name)))
  end.

(** [unit.parent !== parent.xref] *)
Definition isChildOf (unit parent : ViewCompilationUnit) : bool :=
  match Ir.parent unit with
  | None => false
  | Some p => Nat.eqb p (xref parent)
  end.

(** [emitChildViews] calls itself on every child; [depth] bounds the nesting
    of these calls. *)
Fixpoint emitChildViews (depth : nat) (job : ComponentCompilationJob)
    (parent : ViewCompilationUnit) : M ConstantPool unit :=
  match depth with
  | O => pure_call NoAnswer
  | S depth' =>
      forEach (units job) (fun unit =>
        if isChildOf unit parent then
          bind (emitChildViews depth' job unit) (fun _ =>
          bind (pure_call (emitView unit)) (fun viewFn =>
            push (O.toDeclStmt viewFn (O.name viewFn))))
        else ret tt)
  end.

Definition emitTemplateFn (depth : nat) (tpl : ComponentCompilationJob)
  : M ConstantPool O.FunctionExpr :=
  bind (pure_call (emitView (root tpl))) (fun rootFn =>
  bind (emitChildViews depth tpl (root tpl)) (fun _ =>
    ret rootFn)).

(** [None] is [null]. *)
Definition emitHostBindingFunction (job : HostBindingCompilationJob)
  : outcome (option O.FunctionExpr) :=
  match host_fnName (host_root job) with
  | None => Thrown HostBindingUnnamed
  | Some name =>
      obind (collectStatements CreateOpNotCompiled (host_create (host_root job)))
        (fun createStatements =>
      obind (collectStatements UpdateOpNotCompiled (host_update (host_root job)))
        (fun updateStatements =>
        match createStatements, updateStatements with
        | [], [] => Returned None
        | _, _ =>
            let createCond := maybeGenerateRfBlock 1 createStatements in
            let updateCond := maybeGenerateRfBlock 2 updateStatements in
            Returned (Some (O.fn [lit "rf"; lit "ctx"] (createCond ++ updateCond) name))
        end))
  end.

End Emit.

(** * Properties *)

(** ** Serialization of a single value *)

Section FormatValue.
Import I18n.

(** The value with some flags taken away. *)
Definition without (mask : Z) (v : I18nParamValue) : I18nParamValue :=
  mkValue (value v) (subTemplateIndex v) (Z.ldiff (flags v) mask).

Lemma has_ldiff_other fl mask other :
  Z.land (Z.lnot mask) other = other ->
  has (Z.ldiff fl mask) other = has fl other.
Proof.
  intros H. unfold has.
  now rewrite Z.ldiff_land, <- Z.land_assoc, H.
Qed.

Lemma has_ldiff_same fl mask : has (Z.ldiff fl mask) mask = false.
Proof.
  unfold has.
  rewrite Z.ldiff_land, <- Z.land_assoc, (Z.land_comm (Z.lnot mask)), Z.land_lnot_diag.
  now rewrite Z.land_0_r.
Qed.

Lemma tagMarker_without_CloseTag v : tagMarker (without CloseTag v) = tagMarker v.
Proof.
  unfold tagMarker, without; simpl.
  now rewrite !has_ldiff_other by reflexivity.
Qed.

Lemma tagMarker_without_OpenTag v : tagMarker (without OpenTag v) = tagMarker v.
Proof.
  unfold tagMarker, without; simpl.
  now rewrite !has_ldiff_other by reflexivity.
Qed.

Lemma formatValue_open_form v :
  formatValue (without CloseTag v)
  = ESCAPE ++ tagMarker v ++ show (value v) ++ context v ++ ESCAPE.
Proof.
  unfold formatValue, closeMarker.
  rewrite tagMarker_without_CloseTag.
  replace (has (flags (without CloseTag v)) CloseTag) with false
    by (symmetry; apply has_ldiff_same).
  rewrite andb_false_r.
  now destruct (tagMarker v).
Qed.

Lemma formatValue_close_form v :
  has (flags v) CloseTag = true ->
  formatValue (without OpenTag v)
  = ESCAPE ++ closeMarker v ++ tagMarker v ++ show (value v) ++ context v ++ ESCAPE.
Proof.
  intros Hc. unfold formatValue, closeMarker.
  rewrite tagMarker_without_OpenTag.
  replace (has (flags (without OpenTag v)) OpenTag) with false
    by (symmetry; apply has_ldiff_same).
  replace (has (flags (without OpenTag v)) CloseTag) with (has (flags v) CloseTag)
    by (symmetry; apply has_ldiff_other; reflexivity).
  reflexivity.
Qed.

(** C5. A value flagged both open-tag and close-tag serializes as two
    escape-wrapped segments back to back: the open form (escape, tag
    marker, raw value, sub-template suffix, escape), which is what the value
    gives without its close-tag flag, then the close form (escape, close
    marker, tag marker, raw value, sub-template suffix, escape), which is
    what it gives without its open-tag flag. *)
Theorem formatValue_self_closing (v : I18nParamValue) :
  has (flags v) OpenTag = true ->
  has (flags v) CloseTag = true ->
  formatValue v
  = (ESCAPE ++ tagMarker v ++ show (value v) ++ context v ++ ESCAPE)
    ++ (ESCAPE ++ closeMarker v ++ tagMarker v ++ show (value v) ++ context v ++ ESCAPE)
  /\ formatValue v
     = formatValue (without CloseTag v) ++ formatValue (without OpenTag v).
Proof.
  intros Ho Hc.
  assert (E : formatValue v
    = (ESCAPE ++ tagMarker v ++ show (value v) ++ context v ++ ESCAPE)
      ++ (ESCAPE ++ closeMarker v ++ tagMarker v ++ show (value v) ++ context v ++ ESCAPE)).
  { unfold formatValue. rewrite Ho, Hc. simpl andb. cbv iota.
    now rewrite <- !app_assoc. }
  split; [exact E|].
  now rewrite E, formatValue_open_form, formatValue_close_form.
Qed.

Definition self_closing_element : I18nParamValue :=
  mkValue (NumValue 3) (Some 1%Z) (ElementTag + OpenTag + CloseTag).

Lemma formatValue_self_closing_witness :
  formatValue self_closing_element
  = [65533; 35; 51; 58; 49; 65533; 65533; 47; 35; 51; 58; 49; 65533]%N.
Proof.
  rewrite (proj1 (formatValue_self_closing self_closing_element
                    eq_refl eq_refl)).
  reflexivity.
Defined.

(** C9. A close-tag value that is neither an element tag nor a template
    tag (and not an open tag) gets no close marker: it serializes as the
    escape character, the raw value, the sub-template suffix and the escape
    character. *)
Theorem formatValue_close_without_tag (v : I18nParamValue) :
  has (flags v) CloseTag = true ->
  has (flags v) ElementTag = false ->
  has (flags v) TemplateTag = false ->
  has (flags v) OpenTag = false ->
  closeMarker v = []
  /\ formatValue v = ESCAPE ++ show (value v) ++ context v ++ ESCAPE.
Proof.
  intros Hc He Ht Ho.
  assert (Hm : tagMarker v = []) by (unfold tagMarker; now rewrite He, Ht).
  assert (Hk : closeMarker v = []) by (unfold closeMarker; now rewrite Hm).
  split; [exact Hk|].
  unfold formatValue. now rewrite Ho, Hk, Hm.
Qed.

Definition bare_close : I18nParamValue :=
  mkValue (StrValue (lit "x")) None CloseTag.

Lemma formatValue_close_without_tag_witness :
  formatValue bare_close = [65533; 120; 65533]%N.
Proof.
  rewrite (proj2 (formatValue_close_without_tag bare_close
                    eq_refl eq_refl eq_refl eq_refl)).
  reflexivity.
Defined.

End FormatValue.

(** ** Emission of one unit *)

Section EmitOne.
Import Ir Emit.

Definition lowered (ops : list Op) : Prop :=
  Forall (fun op => kind op = Statement) ops.

Definition notLowered (ops : list Op) : Prop :=
  Exists (fun op => kind op <> Statement) ops.

(** The statement that a statement operation carries. *)
Definition statementOf (op : Op) : list O.Statement :=
  match op with
  | StatementOp statement => [statement]
  | _ => []
  end.

Lemma collectStatements_lowered notCompiled ops :
  lowered ops ->
  collectStatements notCompiled ops = Returned (flat_map statementOf ops).
Proof.
  induction 1 as [|op ops Hop _ IH]; simpl; [reflexivity|].
  destruct op; simpl in Hop; try discriminate.
  now rewrite IH.
Qed.

Lemma collectStatements_notLowered notCompiled ops :
  notLowered ops ->
  exists k, k <> Statement /\ collectStatements notCompiled ops = Thrown (notCompiled k).
Proof.
  induction 1 as [op ops Hop | op ops _ IH]; simpl.
  - destruct op; simpl in Hop; try congruence; eexists; (split; [|reflexivity]); discriminate.
  - destruct op; try (eexists; (split; [|reflexivity]); discriminate).
    destruct IH as (k & Hk & ->). simpl. now exists k.
Qed.

Lemma lowered_or_not ops : lowered ops \/ notLowered ops.
Proof.
  induction ops as [|op ops [IH|IH]].
  - left; constructor.
  - destruct op.
    + left; constructor; [reflexivity | exact IH].
    + right; left; discriminate.
    + right; left; discriminate.
  - right; now right.
Qed.

Lemma flat_map_statementOf_nil ops :
  lowered ops -> flat_map statementOf ops = [] -> ops = [].
Proof.
  destruct 1 as [|op ops Hop _]; [reflexivity|].
  destruct op; simpl in *; discriminate.
Qed.

(** An unnamed view with nothing in it. *)
Definition unnamed_view : ViewCompilationUnit := mkView 0 None None [] [].

(** C1, as stated, fails: a unit whose lists hold only statement
    operations (here, none at all) makes [emitView] throw when it has no
    function name. *)
Lemma emitView_lowered_unnamed_throws :
  lowered (create unnamed_view) /\ lowered (update unnamed_view)
  /\ emitView unnamed_view = Thrown (ViewUnnamed 0).
Proof.
  repeat split; constructor.
Qed.

(** C1, amended. [emitView] throws when some operation of the create list
    or of the update list is not a statement; on a unit that has a function
    name and whose two lists hold only statement operations it returns a
    function. *)
Theorem emitView_completeness (view : ViewCompilationUnit) :
  (notLowered (create view) \/ notLowered (update view) ->
   exists e, emitView view = Thrown e)
  /\ (fnName view <> None -> lowered (create view) -> lowered (update view) ->
      exists f, emitView view = Returned f).
Proof.
  unfold emitView. split.
  - intros H. destruct (fnName view) as [name|]; [|eexists; reflexivity].
    destruct H as [H|H].
    + destruct (collectStatements_notLowered CreateOpNotCompiled H) as (k & _ & ->).
      eexists; reflexivity.
    + destruct (lowered_or_not (create view)) as [Hc|Hc].
      * rewrite (collectStatements_lowered _ Hc). simpl.
        destruct (collectStatements_notLowered UpdateOpNotCompiled H) as (k & _ & ->).
        eexists; reflexivity.
      * destruct (collectStatements_notLowered CreateOpNotCompiled Hc) as (k & _ & ->).
        eexists; reflexivity.
  - intros Hn Hc Hu. destruct (fnName view) as [name|]; [|congruence].
    rewrite (collectStatements_lowered _ Hc), (collectStatements_lowered _ Hu).
    eexists; reflexivity.
Qed.

Definition named_view : ViewCompilationUnit :=
  mkView 0 None (Some (lit "Cmp_Template"))
    [StatementOp (O.ReifiedStmt (lit "a"))] [StatementOp (O.ReifiedStmt (lit "b"))].

Definition unlowered_view : ViewCompilationUnit :=
  mkView 0 None (Some (lit "Cmp_Template")) [OtherOp 7] [].

Lemma emitView_completeness_witness :
  (exists e, emitView unlowered_view = Thrown e)
  /\ (exists f, emitView named_view = Returned f).
Proof.
  split.
  - apply (proj1 (emitView_completeness unlowered_view)).
    left; left; discriminate.
  - apply (proj2 (emitView_completeness named_view)).
    + discriminate.
    + repeat constructor.
    + repeat constructor.
Defined.

(** ** Emission of a host-binding job *)

(** C10. A host-binding job whose root unit has no function name makes
    [emitHostBindingFunction] throw, whatever its two lists hold: in
    particular when both are empty, where a named job gives [null]. *)
Theorem emitHostBindingFunction_unnamed (job : HostBindingCompilationJob) :
  host_fnName (host_root job) = None ->
  emitHostBindingFunction job = Thrown HostBindingUnnamed.
Proof.
  intros H. unfold emitHostBindingFunction. now rewrite H.
Qed.

Definition unnamed_host_job : HostBindingCompilationJob :=
  mkHostJob (mkHostUnit 0 None [] []).

Lemma emitHostBindingFunction_unnamed_witness :
  host_create (host_root unnamed_host_job) = []
  /\ host_update (host_root unnamed_host_job) = []
  /\ emitHostBindingFunction unnamed_host_job = Thrown HostBindingUnnamed.
Proof.
  split; [reflexivity | split; [reflexivity|]].
  apply (emitHostBindingFunction_unnamed unnamed_host_job). reflexivity.
Defined.

Definition empty_unnamed_host_job : HostBindingCompilationJob :=
  mkHostJob (mkHostUnit 1 None [] []).

(** C7, as stated, fails: both lists of this job are empty and
    [emitHostBindingFunction] does not return [null]. *)
Lemma emitHostBindingFunction_empty_not_null :
  host_create (host_root empty_unnamed_host_job) = []
  /\ host_update (host_root empty_unnamed_host_job) = []
  /\ emitHostBindingFunction empty_unnamed_host_job <> Returned None.
Proof.
  repeat split. discriminate.
Qed.

(** C7, amended. For a host-binding job whose root unit has a function
    name and whose two lists hold only statement operations,
    [emitHostBindingFunction] returns [null] exactly when both lists are
    empty, and a function otherwise. *)
Theorem emitHostBindingFunction_null_iff_empty (job : HostBindingCompilationJob) :
  host_fnName (host_root job) <> None ->
  lowered (host_create (host_root job)) ->
  lowered (host_update (host_root job)) ->
  (emitHostBindingFunction job = Returned None
   <-> host_create (host_root job) = [] /\ host_update (host_root job) = [])
  /\ (~ (host_create (host_root job) = [] /\ host_update (host_root job) = []) ->
      exists f, emitHostBindingFunction job = Returned (Some f)).
Proof.
  intros Hn Hc Hu. unfold emitHostBindingFunction.
  destruct (host_fnName (host_root job)) as [name|]; [|congruence].
  rewrite (collectStatements_lowered _ Hc), (collectStatements_lowered _ Hu). simpl.
  destruct (flat_map statementOf (host_create (host_root job))) as [|s ss] eqn:Ec.
  - destruct (flat_map statementOf (host_update (host_root job))) as [|t ts] eqn:Eu.
    + apply (flat_map_statementOf_nil Hc) in Ec.
      apply (flat_map_statementOf_nil Hu) in Eu.
      split; [tauto | intros H; tauto].
    + split.
      * split; [discriminate|]. intros [_ E]. rewrite E in Eu. discriminate.
      * intros _. eexists; reflexivity.
  - split.
    + split; [discriminate|]. intros [E _]. rewrite E in Ec. discriminate.
    + intros _. eexists; reflexivity.
Qed.

Definition empty_host_job : HostBindingCompilationJob :=
  mkHostJob (mkHostUnit 0 (Some (lit "Dir_HostBindings")) [] []).

Definition bound_host_job : HostBindingCompilationJob :=
  mkHostJob (mkHostUnit 0 (Some (lit "Dir_HostBindings")) []
               [StatementOp (O.ReifiedStmt (lit "b"))]).

Lemma emitHostBindingFunction_null_iff_empty_witness :
  emitHostBindingFunction empty_host_job = Returned None
  /\ exists f, emitHostBindingFunction bound_host_job = Returned (Some f).
Proof.
  split.
  - apply (proj1 (emitHostBindingFunction_null_iff_empty empty_host_job
             ltac:(discriminate) ltac:(constructor) ltac:(constructor))).
    split; reflexivity.
  - apply (proj2 (emitHostBindingFunction_null_iff_empty bound_host_job
             ltac:(discriminate) ltac:(constructor) ltac:(repeat constructor))).
    intros [_ H]; discriminate.
Defined.

End EmitOne.

(** ** The pipeline driver *)

Section DriverProperties.
Import Pipeline.

(** The phase functions registered for a job kind, in registration order. *)
Definition applicable (jobKind : Kind) : list PhaseFn :=
  map fn (filter (applies jobKind) phases).

(** The place of a phase function in the list [phases]. *)
Definition registration (f : PhaseFn) : nat :=
  match f with
  | removeContentSelectors => 0
  | parseHostStyleProperties => 1
  | emitNamespaceChanges => 2
  | specializeStyleBindings => 3
  | specializeBindings => 4
  | propagateI18nBlocks => 5
  | wrapI18nIcus => 6
  | extractAttributes => 7
  | parseExtractedStyles => 8
  | removeEmptyBindings => 9
  | collapseSingletonInterpolations => 10
  | orderOps => 11
  | generateConditionalExpressions => 12
  | createPipes => 13
  | configureDeferInstructions => 14
  | extractI18nText => 15
  | extractI18nICUs => 16
  | applyI18nExpressions => 17
  | createVariadicPipes => 18
  | generatePureLiteralStructures => 19
  | generateProjectionDefs => 20
  | generateVariables => 21
  | saveAndRestoreView => 22
  | deleteAnyCasts => 23
  | resolveDollarEvent => 24
  | generateRepeaterDerivedVars => 25
  | generateTrackVariables => 26
  | resolveNames => 27
  | resolveDeferTargetNames => 28
  | optimizeTrackFns => 29
  | resolveContexts => 30
  | resolveSanitizers => 31
  | liftLocalRefs => 32
  | generateNullishCoalesceExpressions => 33
  | expandSafeReads => 34
  | generateTemporaryVariables => 35
  | allocateSlots => 36
  | extractI18nMessages => 37
  | resolveI18nElementPlaceholders => 38
  | resolveI18nExpressionPlaceholders => 39
  | propogateI18nPlaceholders => 40
  | formatI18nParams => 41
  | generateTrackFns => 42
  | collectI18nConsts => 43
  | collectConstExpressions => 44
  | collectElementConsts => 45
  | assignI18nSlotDependencies => 46
  | countVariables => 47
  | generateAdvance => 48
  | optimizeVariables => 49
  | nameFunctionsAndVariables => 50
  | mergeNextContextExpressions => 51
  | generateNgContainerOps => 52
  | collapseEmptyInstructions => 53
  | disableBindings => 54
  | extractPureFunctions => 55
  | reify => 56
  | chain => 57
  end.

Lemma applies_spec jobKind phase :
  applies jobKind phase = true <-> kind phase = jobKind \/ kind phase = Both.
Proof.
  unfold applies. rewrite orb_true_iff.
  destruct (kind phase), jobKind; simpl; intuition discriminate.
Qed.

Lemma phases_in_registration_order :
  map registration (map fn phases) = seq 0 (List.length phases).
Proof. reflexivity. Qed.

Lemma phases_registered_once : NoDup (map fn phases).
Proof.
  apply (NoDup_map_inv registration).
  rewrite phases_in_registration_order. apply seq_NoDup.
Qed.

Lemma NoDup_map_filter {A B} (g : A -> B) (p : A -> bool) (l : list A) :
  NoDup (map g l) -> NoDup (map g (filter p l)).
Proof.
  induction l as [|a l IH]; simpl; intros H; [constructor|].
  inversion H as [|? ? Hin Hnd]; subst.
  destruct (p a); simpl; [constructor|]; auto.
  intros Hin'. apply Hin.
  apply in_map_iff in Hin' as (x & <- & Hx).
  apply filter_In in Hx as [Hx _]. now apply in_map.
Qed.

Section Run.
Variable Job : Type.
Variable call : PhaseFn -> M Job unit.
Variable jobKind : Kind.

Lemma journaled_call f job journal :
  journaled call f (job, journal)
  = (fst (call f job), (snd (call f job), journal ++ [f])).
Proof. unfold journaled. simpl. now destruct (call f job). Qed.

Lemma runPhases_journal ps : forall job journal,
  exists invoked rest,
    runPhases (journaled call) ps jobKind (job, journal)
    = (fst (runPhases call ps jobKind job),
       (snd (runPhases call ps jobKind job), journal ++ invoked))
    /\ map fn (filter (applies jobKind) ps) = invoked ++ rest
    /\ (fst (runPhases call ps jobKind job) = Returned tt -> rest = []).
Proof.
  induction ps as [|phase ps' IH]; intros job journal; simpl.
  - exists [], []. now rewrite app_nil_r.
  - destruct (applies jobKind phase); [|apply IH].
    unfold bind. rewrite journaled_call.
    destruct (call (fn phase) job) as [[[]|e|] job1]; simpl fst; simpl snd.
    + destruct (IH job1 (journal ++ [fn phase])) as (invoked & rest & E & Hs & Hr).
      exists (fn phase :: invoked), rest. rewrite E, <- app_assoc. simpl.
      repeat split; [now rewrite Hs | exact Hr].
    + exists [fn phase], (map fn (filter (applies jobKind) ps')).
      repeat split. discriminate.
    + exists [fn phase], (map fn (filter (applies jobKind) ps')).
      repeat split. discriminate.
Qed.
End Run.

End DriverProperties.

(** C2. Whatever the phase functions do to the job, [transform] calls the
    phases registered for the job kind or for both kinds, and no other, in
    registration order and each once: the calls made are an initial part of
    that list, and the whole of it when [transform] returns.  The journal of
    calls is kept next to the job and changes nothing of what happens to the
    job. *)
Theorem transform_runs_applicable_phases
    (Job : Type) (call : Pipeline.PhaseFn -> M Job unit)
    (jobKind : Pipeline.Kind) (job : Job) :
  (forall f, In f (applicable jobKind) <->
     exists phase, In phase Pipeline.phases /\ Pipeline.fn phase = f
       /\ (Pipeline.kind phase = jobKind \/ Pipeline.kind phase = Pipeline.Both))
  /\ NoDup (applicable jobKind)
  /\ map registration (applicable jobKind)
     = filter (fun i => existsb (fun phase =>
                           Nat.eqb (registration (Pipeline.fn phase)) i
                           && Pipeline.applies jobKind phase) Pipeline.phases)
         (seq 0 (List.length Pipeline.phases))
  /\ exists invoked rest,
       Pipeline.transform (Pipeline.journaled call) jobKind (job, [])
       = (fst (Pipeline.transform call jobKind job),
          (snd (Pipeline.transform call jobKind job), invoked))
       /\ applicable jobKind = invoked ++ rest
       /\ (fst (Pipeline.transform call jobKind job) = Returned tt ->
           invoked = applicable jobKind).
Proof.
  split; [|split; [|split]].
  - intros f. unfold applicable. rewrite in_map_iff. split.
    + intros (q & Hq & Hin). apply filter_In in Hin as [Hin Ha].
      exists q. repeat split; [exact Hin | exact Hq | now apply applies_spec].
    + intros (q & Hin & Hq & Hk). exists q. split; [exact Hq|].
      apply filter_In. split; [exact Hin | now apply applies_spec].
  - apply NoDup_map_filter, phases_registered_once.
  - destruct jobKind; vm_compute; reflexivity.
  - destruct (runPhases_journal call jobKind Pipeline.phases job [])
      as (invoked & rest & E & Hs & Hr).
    exists invoked, rest. unfold Pipeline.transform.
    split; [exact E|]. split; [exact Hs|].
    intros H. specialize (Hr H). subst rest.
    now rewrite app_nil_r in Hs.
Qed.

(** A host-binding job whose phases all return: the journal is the list of
    the phases registered for host bindings or for both kinds. *)
Lemma transform_runs_applicable_phases_witness :
  snd (snd (Pipeline.transform (Pipeline.journaled (fun _ => mutate S))
              Pipeline.Host (0, [])))
  = applicable Pipeline.Host.
Proof.
  destruct (transform_runs_applicable_phases (fun _ => mutate S) Pipeline.Host 0)
    as (_ & _ & _ & invoked & rest & E & _ & H).
  rewrite E. cbn [snd]. apply H. vm_compute. reflexivity.
Defined.

(** ** Strings, maps and the default sort *)

Section StringOrder.

Lemma eqb_eq (a b : jsstring) : JsString.eqb a b = true <-> a = b.
Proof.
  unfold JsString.eqb. destruct (list_eq_dec N.eq_dec a b); split; congruence.
Qed.

Lemma eqb_neq (a b : jsstring) : JsString.eqb a b = false <-> a <> b.
Proof.
  unfold JsString.eqb. destruct (list_eq_dec N.eq_dec a b); split; congruence.
Qed.

Lemma ltb_irrefl (a : jsstring) : JsString.ltb a a = false.
Proof.
  induction a as [|x a IH]; simpl; [reflexivity|].
  now rewrite N.ltb_irrefl.
Qed.

Lemma ltb_trans (a b c : jsstring) :
  JsString.ltb a b = true -> JsString.ltb b c = true -> JsString.ltb a c = true.
Proof.
  revert b c. induction a as [|x a IH]; intros [|y b] [|z c]; simpl; try congruence.
  destruct (N.ltb_spec x y), (N.ltb_spec y x), (N.ltb_spec y z), (N.ltb_spec z y),
    (N.ltb_spec x z), (N.ltb_spec z x); try congruence; try lia.
  apply IH.
Qed.

Lemma ltb_total (a b : jsstring) :
  JsString.ltb a b = false -> JsString.ltb b a = false -> a = b.
Proof.
  revert b. induction a as [|x a IH]; intros [|y b]; simpl; try congruence.
  destruct (N.ltb_spec x y), (N.ltb_spec y x); try congruence; try lia.
  intros H1 H2. f_equal; [lia | now apply IH].
Qed.

Lemma ltb_asym (a b : jsstring) :
  JsString.ltb a b = true -> JsString.ltb b a = false.
Proof.
  intros H. destruct (JsString.ltb b a) eqn:E; [|reflexivity].
  pose proof (ltb_trans _ _ _ H E) as F. now rewrite ltb_irrefl in F.
Qed.

(** [a <= b] carried along [b < c] and [b <= c]. *)
Lemma ltb_false_trans (a b c : jsstring) :
  JsString.ltb b a = false -> JsString.ltb c b = false -> JsString.ltb c a = false.
Proof.
  intros Hab Hbc. destruct (JsString.ltb c a) eqn:E; [|reflexivity].
  destruct (JsString.ltb a b) eqn:F.
  - pose proof (ltb_trans _ _ _ E F). congruence.
  - pose proof (ltb_total _ _ F Hab). subst b. congruence.
Qed.

End StringOrder.

Section SortFacts.
Variable A : Type.
Variable toString : A -> jsstring.

Lemma insert_perm (x : A) (l : list A) : Permutation (insert toString x l) (x :: l).
Proof.
  induction l as [|y l IH]; simpl; [apply Permutation_refl|].
  destruct (keeps toString x y); [apply Permutation_refl|].
  rewrite IH. apply perm_swap.
Qed.

Lemma sort_perm (l : list A) : Permutation (sort toString l) l.
Proof.
  induction l as [|x l IH]; simpl; [constructor|].
  rewrite insert_perm. now constructor.
Qed.

Lemma keeps_total x y : keeps toString x y = false -> keeps toString y x = true.
Proof.
  unfold keeps. intros H. apply negb_false_iff in H.
  now rewrite (ltb_asym _ _ H).
Qed.

Lemma keeps_trans x y z :
  keeps toString x y = true -> keeps toString y z = true -> keeps toString x z = true.
Proof.
  unfold keeps. rewrite !negb_true_iff. intros H1 H2.
  exact (ltb_false_trans _ _ _ H1 H2).
Qed.

Definition inOrder : list A -> Prop :=
  StronglySorted (fun x y => keeps toString x y = true).

Lemma insert_inOrder (x : A) (l : list A) : inOrder l -> inOrder (insert toString x l).
Proof.
  unfold inOrder. induction 1 as [|y l Hs IH Hall]; simpl.
  - repeat constructor.
  - destruct (keeps toString x y) eqn:E.
    + constructor; [now constructor|].
      constructor; [exact E|].
      rewrite Forall_forall in *. intros z Hz.
      apply keeps_trans with y; auto.
    + constructor; [exact IH|].
      rewrite Forall_forall in *. intros z Hz.
      apply (Permutation_in _ (insert_perm x l)) in Hz.
      destruct Hz as [<-|Hz]; [now apply keeps_total | auto].
Qed.

Lemma sort_inOrder (l : list A) : inOrder (sort toString l).
Proof.
  induction l as [|x l IH]; simpl; [constructor | now apply insert_inOrder].
Qed.

End SortFacts.

Section MapFacts.
Variable V : Type.

Lemma set_fresh (m : JsMap.t V) k v :
  ~ In k (JsMap.keys m) -> JsMap.set m k v = m ++ [(k, v)].
Proof.
  induction m as [|[k' v'] m IH]; simpl; intros H; [reflexivity|].
  destruct (JsString.eqb k' k) eqn:E.
  - apply eqb_eq in E. tauto.
  - f_equal. apply IH. tauto.
Qed.

Lemma get_absent (m : JsMap.t V) k :
  ~ In k (JsMap.keys m) -> JsMap.get m k = None.
Proof.
  induction m as [|[k' v'] m IH]; simpl; intros H; [reflexivity|].
  destruct (JsString.eqb k' k) eqn:E.
  - apply eqb_eq in E. tauto.
  - apply IH. tauto.
Qed.

Lemma keys_app (m1 m2 : JsMap.t V) :
  JsMap.keys (m1 ++ m2) = JsMap.keys m1 ++ JsMap.keys m2.
Proof. apply map_app. Qed.

End MapFacts.

(** ** [formatParams] *)

Section FormatParams.
Import I18n I18nFormat.

(** What [formatParams] makes of one entry. *)
Definition formatEntry (e : jsstring * list I18nParamValue)
  : JsMap.t O.Expression :=
  match formatParamValues (snd e) with
  | Some s => [(fst e, O.literal (O.LitString s))]
  | None => []
  end.

Lemma formatParamValues_cases (values : list I18nParamValue) :
  formatParamValues values
  = match values with
    | [] => None
    | [v] => Some (formatValue v)
    | _ => Some (LIST_START_MARKER
                   ++ JsString.join LIST_DELIMITER (map formatValue values)
                   ++ LIST_END_MARKER)
    end.
Proof. now destruct values as [|v1 [|v2 rest]]. Qed.

Lemma formatParams_step_fresh result e :
  ~ In (fst e) (JsMap.keys result) ->
  formatParams_step result e = result ++ formatEntry e.
Proof.
  destruct e as [k vs]. unfold formatParams_step, formatEntry. simpl.
  destruct (formatParamValues vs) as [s|]; intros H.
  - now rewrite set_fresh.
  - now rewrite app_nil_r.
Qed.

Lemma keys_formatEntry e k : In k (JsMap.keys (formatEntry e)) -> k = fst e.
Proof.
  unfold formatEntry. destruct (formatParamValues (snd e)); simpl; intuition.
Qed.

Lemma keys_flat_map_formatEntry l k :
  In k (JsMap.keys (flat_map formatEntry l)) -> In k (JsMap.keys l).
Proof.
  induction l as [|e l IH]; simpl; [tauto|].
  rewrite keys_app, in_app_iff. intros [H|H].
  - left. symmetry. now apply keys_formatEntry.
  - right. now apply IH.
Qed.

Lemma fold_formatParams_step l : forall result,
  NoDup (JsMap.keys l) ->
  (forall k, In k (JsMap.keys l) -> ~ In k (JsMap.keys result)) ->
  fold_left formatParams_step l result = result ++ flat_map formatEntry l.
Proof.
  induction l as [|e l IH]; intros result Hnd Hfresh; simpl.
  - now rewrite app_nil_r.
  - simpl in Hnd. inversion Hnd as [|? ? Hnotin Hnd']; subst.
    rewrite formatParams_step_fresh by (apply Hfresh; now left).
    rewrite IH, <- app_assoc; [reflexivity | exact Hnd' |].
    intros k Hk. rewrite keys_app, in_app_iff. intros [H|H].
    + apply (Hfresh k); [now right | exact H].
    + apply keys_formatEntry in H. subst k. contradiction.
Qed.

(** [formatParams] on a map: the entries in the order of the default sort,
    each formatted, those without values dropped. *)
Lemma formatParams_sorted_entries params :
  JsMap.wf params ->
  formatParams params = flat_map formatEntry (sort entryToString params).
Proof.
  intros Hwf. unfold formatParams.
  rewrite fold_formatParams_step; [reflexivity | | intros k _ []].
  unfold JsMap.wf, JsMap.keys in *.
  apply (Permutation_NoDup (l := map fst params)); [|exact Hwf].
  apply Permutation_map, Permutation_sym, sort_perm.
Qed.

Lemma get_flat_map_formatEntry l k vs :
  NoDup (JsMap.keys l) -> In (k, vs) l ->
  JsMap.get (flat_map formatEntry l) k
  = option_map (fun s => O.literal (O.LitString s)) (formatParamValues vs).
Proof.
  induction l as [|[k0 vs0] l IH]; simpl; intros Hnd Hin; [contradiction|].
  inversion Hnd as [|? ? Hnotin Hnd']; subst.
  destruct Hin as [E|Hin].
  - injection E as -> ->.
    unfold formatEntry at 1. simpl.
    destruct (formatParamValues vs) as [s|]; simpl.
    + now rewrite (proj2 (eqb_eq k k) eq_refl).
    + apply get_absent. intros H. apply Hnotin.
      now apply keys_flat_map_formatEntry.
  - assert (k0 <> k).
    { intros ->. apply Hnotin. change k with (fst (k, vs)). now apply in_map. }
    unfold formatEntry at 1. simpl.
    destruct (formatParamValues vs0) as [s|]; simpl; [|now apply IH].
    rewrite (proj2 (eqb_neq k0 k)) by assumption. now apply IH.
Qed.

(** C3. In the map that [formatParams] returns, a placeholder with one
    value [v1] is bound to [formatValue v1]; a placeholder with two values
    or more is bound to the list-start marker, the formatted values joined by
    the delimiter, and the list-end marker; a placeholder with no value is
    not a key of the map. *)
Theorem formatParams_entry (params : JsMap.t (list I18nParamValue))
    (placeholder : jsstring) (values : list I18nParamValue) :
  JsMap.wf params ->
  In (placeholder, values) params ->
  match values with
  | [] =>
      JsMap.get (formatParams params) placeholder = None
      /\ ~ In placeholder (JsMap.keys (formatParams params))
  | [v1] =>
      JsMap.get (formatParams params) placeholder
      = Some (O.literal (O.LitString (formatValue v1)))
  | _ =>
      JsMap.get (formatParams params) placeholder
      = Some (O.literal (O.LitString
                (lit "[" ++ JsString.join (lit "|") (map formatValue values)
                   ++ lit "]")))
  end.
Proof.
  intros Hwf Hin.
  assert (Hnd : NoDup (JsMap.keys (sort entryToString params))).
  { unfold JsMap.wf, JsMap.keys in *.
    apply (Permutation_NoDup (l := map fst params)); [|exact Hwf].
    apply Permutation_map, Permutation_sym, sort_perm. }
  assert (Hin' : In (placeholder, values) (sort entryToString params)).
  { apply (Permutation_in _ (Permutation_sym (sort_perm entryToString params))), Hin. }
  pose proof (@get_flat_map_formatEntry _ _ _ Hnd Hin') as G.
  rewrite <- formatParams_sorted_entries in G by exact Hwf.
  rewrite formatParamValues_cases in G.
  destruct values as [|v1 [|v2 rest]]; simpl in G; try exact G.
  split; [exact G|].
  rewrite formatParams_sorted_entries by exact Hwf.
  intros Hk.
  assert (Hsplit : exists l1 l2, sort entryToString params = l1 ++ (placeholder, []) :: l2)
    by now apply in_split.
  destruct Hsplit as (l1 & l2 & E). rewrite E in Hk, Hnd.
  rewrite flat_map_app in Hk. simpl in Hk.
  unfold JsMap.keys in Hnd. rewrite map_app in Hnd. simpl in Hnd.
  apply NoDup_remove_2 in Hnd. apply Hnd.
  rewrite keys_app, in_app_iff in Hk. rewrite in_app_iff.
  destruct Hk as [Hk|Hk]; [left|right]; now apply keys_flat_map_formatEntry.
Qed.

Definition three_params : JsMap.t (list I18nParamValue) :=
  [ (lit "START_TAG_DIV", [mkValue (NumValue 1) None (ElementTag + OpenTag);
                           mkValue (NumValue 4) None (ElementTag + OpenTag)]);
    (lit "INTERPOLATION", [mkValue (NumValue 0) None 0]);
    (lit "CLOSE_TAG_DIV", []) ].

Lemma formatParams_entry_witness :
  JsMap.get (formatParams three_params) (lit "INTERPOLATION")
  = Some (O.literal (O.LitString [65533; 48; 65533]%N)).
Proof.
  apply (@formatParams_entry three_params (lit "INTERPOLATION")
           [mkValue (NumValue 0) None 0]).
  - unfold JsMap.wf. vm_compute.
    repeat (constructor; [simpl; intuition discriminate|]). constructor.
  - right; left; reflexivity.
Defined.

End FormatParams.

(** ** The order of the formatted map *)

Section FormatOrder.
Import I18n I18nFormat.

(** A placeholder all of whose code units come after the comma. *)
Definition plain (k : jsstring) : Prop := Forall (fun c => (44 < c)%N) k.

Lemma entryToString_unfold e :
  entryToString e
  = fst e ++ 44%N :: JsString.join (lit ",") (map objectToString (snd e)).
Proof. reflexivity. Qed.

(** Between two distinct plain placeholders, the string forms of the
    entries compare as the placeholders do. *)
Lemma ltb_entries_plain (k1 k2 s1 s2 : jsstring) :
  plain k1 -> plain k2 -> k1 <> k2 ->
  JsString.ltb (k1 ++ 44%N :: s1) (k2 ++ 44%N :: s2) = JsString.ltb k1 k2.
Proof.
  revert k2. induction k1 as [|x k1 IH]; intros [|y k2] H1 H2 Hne; simpl.
  - congruence.
  - inversion H2; subst. destruct (N.ltb_spec 44 y); [reflexivity | lia].
  - inversion H1; subst.
    destruct (N.ltb_spec x 44); [lia|].
    destruct (N.ltb_spec 44 x); [reflexivity | lia].
  - inversion H1; inversion H2; subst.
    destruct (N.ltb_spec x y); [reflexivity|].
    destruct (N.ltb_spec y x); [reflexivity|].
    apply IH; try assumption. intros ->. apply Hne. f_equal. lia.
Qed.

Definition ascending : list jsstring -> Prop :=
  StronglySorted (fun a b => JsString.ltb a b = true).

Lemma keys_formatted_ascending (l : JsMap.t (list I18nParamValue)) :
  inOrder entryToString l ->
  NoDup (JsMap.keys l) ->
  Forall plain (JsMap.keys l) ->
  ascending (JsMap.keys (flat_map formatEntry l)).
Proof.
  unfold inOrder, ascending.
  induction 1 as [|e l Hs IH Hall]; simpl; intros Hnd Hpl; [constructor|].
  inversion Hnd as [|? ? Hnotin Hnd']; subst.
  inversion Hpl as [|? ? Hpe Hpl']; subst.
  specialize (IH Hnd' Hpl').
  rewrite keys_app. unfold formatEntry at 1.
  destruct (formatParamValues (snd e)); simpl; [|exact IH].
  constructor; [exact IH|].
  rewrite Forall_forall in *. intros k Hk.
  apply keys_flat_map_formatEntry in Hk.
  assert (Hne : fst e <> k) by (intros E; apply Hnotin; now rewrite E).
  pose proof (Hpl' k Hk) as Hpk.
  unfold JsMap.keys in Hk. apply in_map_iff in Hk as (e' & <- & He').
  specialize (Hall e' He'). unfold keeps in Hall. apply negb_true_iff in Hall.
  rewrite !entryToString_unfold, ltb_entries_plain in Hall by auto.
  destruct (JsString.ltb (fst e) (fst e')) eqn:E; [reflexivity|].
  exfalso. apply Hne. now apply ltb_total.
Qed.

(** The entries of the formatted map stand in the order of the string forms
    of the entries of [params], which for plain placeholders is the order of
    the placeholders. *)
Lemma formatParams_keys_ascending_plain (params : JsMap.t (list I18nParamValue)) :
  JsMap.wf params ->
  Forall plain (JsMap.keys params) ->
  ascending (JsMap.keys (formatParams params)).
Proof.
  intros Hwf Hpl.
  assert (P : Permutation (JsMap.keys (sort entryToString params)) (JsMap.keys params))
    by (apply Permutation_map, sort_perm).
  rewrite formatParams_sorted_entries by exact Hwf.
  apply keys_formatted_ascending.
  - apply sort_inOrder.
  - apply (Permutation_NoDup (Permutation_sym P)), Hwf.
  - rewrite Forall_forall in *. intros k Hk. apply Hpl.
    now apply (Permutation_in _ P).
Qed.

(** Two placeholders, the first the beginning of the second, which goes on
    with a space. *)
Definition prefix_params : JsMap.t (list I18nParamValue) :=
  [ (lit "A", [mkValue (NumValue 0) None 0]);
    (lit "A B", [mkValue (NumValue 1) None 0]) ].

(** C4, at [prefix_params]: ["A"] is smaller than ["A B"], and the formatted
    map has ["A B"] first: the default sort compares ["A,[object Object]"]
    with ["A B,[object Object]"], where the space comes before the comma. *)
Theorem formatParams_prefix_keys_out_of_order :
  JsMap.keys prefix_params = [lit "A"; lit "A B"]
  /\ JsString.ltb (lit "A") (lit "A B") = true
  /\ JsMap.keys (formatParams prefix_params) = [lit "A B"; lit "A"]
  /\ ~ ascending (JsMap.keys (formatParams prefix_params)).
Proof.
  split; [reflexivity|]. split; [reflexivity|]. split; [reflexivity|].
  intros H. change (JsMap.keys (formatParams prefix_params))
    with [lit "A B"; lit "A"] in H.
  inversion H as [|? ? _ Hall]; subst.
  inversion Hall as [|? ? Hlt _]; subst.
  vm_compute in Hlt. discriminate.
Qed.

End FormatOrder.

(** ** The phase [formatI18nParams] *)

Section FormatPhaseProperties.
Import I18n I18nFormat Ir FormatPhase.

Lemma anyMultiple_spec init (params : JsMap.t (list I18nParamValue)) :
  anyMultiple init params = true
  <-> init = true \/ exists placeholder values,
        In (placeholder, values) params /\ 1 < List.length values.
Proof.
  unfold anyMultiple. revert init.
  induction params as [|[k vs] params IH]; intros init; simpl.
  - split; [now left | intros [H|(k & vs & [] & _)]; exact H].
  - rewrite IH. destruct (Nat.ltb_spec 1 (List.length vs)) as [Hlt|Hge].
    + split; intros _; [|now left].
      right. exists k, vs. split; [now left | exact Hlt].
    + split.
      * intros [H|(k' & vs' & Hin & Hlt)]; [now left|].
        right. exists k', vs'. split; [now right | exact Hlt].
      * intros [H|(k' & vs' & [E|Hin] & Hlt)]; [now left | |].
        -- injection E as <- <-. simpl in *. lia.
        -- right. exists k', vs'. now split.
Qed.

Lemma units_formatI18nParams job :
  units (formatI18nParams job) = map formatUnit (units job).
Proof. reflexivity. Qed.

(** C6. A root extracted-message operation, wherever it stands in the
    create list of a unit of the job, has after [formatI18nParams] its
    needs-postprocessing flag set exactly when some placeholder of its
    params has more than one value or its postprocessing params are not
    empty; its params are as before. *)
Theorem formatI18nParams_needsPostprocessing
    (job : ComponentCompilationJob) (i j : nat)
    (unit : ViewCompilationUnit) (m : ExtractedMessageOp) :
  nth_error (units job) i = Some unit ->
  nth_error (create unit) j = Some (ExtractedMessageOp_ m) ->
  isRoot m = true ->
  exists unit' m',
    nth_error (units (formatI18nParams job)) i = Some unit'
    /\ nth_error (create unit') j = Some (ExtractedMessageOp_ m')
    /\ params m' = params m
    /\ postprocessingParams m' = postprocessingParams m
    /\ (needsPostprocessing m' = true
        <-> (exists placeholder values,
               In (placeholder, values) (params m) /\ 1 < List.length values)
            \/ postprocessingParams m <> []).
Proof.
  intros Hu Hop Hroot.
  exists (formatUnit unit), (formatMessage m).
  split; [|split; [|split; [|split]]].
  - rewrite units_formatI18nParams. now apply map_nth_error.
  - simpl. rewrite (map_nth_error formatOp _ _ Hop). simpl. now rewrite Hroot.
  - reflexivity.
  - reflexivity.
  - simpl. rewrite anyMultiple_spec.
    assert (S : (0 <? JsMap.size (postprocessingParams m)) = true
                <-> postprocessingParams m <> []).
    { unfold JsMap.size. destruct (postprocessingParams m); simpl.
      - split; [discriminate | congruence].
      - split; [discriminate | reflexivity]. }
    rewrite S. tauto.
Qed.

Definition message_with_two_values : ExtractedMessageOp :=
  mkMessage true
    [(lit "START_TAG_DIV", [mkValue (NumValue 1) None (ElementTag + OpenTag);
                            mkValue (NumValue 4) None (ElementTag + OpenTag)])]
    [] None None false.

Definition job_with_message : ComponentCompilationJob :=
  mkJob (mkView 0 None None [OtherOp 3; ExtractedMessageOp_ message_with_two_values] [])
        [].

Lemma formatI18nParams_needsPostprocessing_witness :
  exists unit' m',
    nth_error (units (formatI18nParams job_with_message)) 0 = Some unit'
    /\ nth_error (create unit') 1 = Some (ExtractedMessageOp_ m')
    /\ needsPostprocessing m' = true.
Proof.
  destruct (@formatI18nParams_needsPostprocessing job_with_message 0 1
              (root job_with_message) message_with_two_values
              eq_refl eq_refl eq_refl)
    as (unit' & m' & Hu & Hm & _ & _ & Hflag).
  exists unit', m'. split; [exact Hu|]. split; [exact Hm|].
  apply Hflag. left.
  eexists; eexists; split; [left; reflexivity | simpl; lia].
Defined.

End FormatPhaseProperties.

(** ** Emission of a template job *)

Section EmitTemplate.
Import Ir Emit.

(** The body of the function emitted for a lowered view. *)
Definition viewBody (view : ViewCompilationUnit) : list O.Statement :=
  maybeGenerateRfBlock 1 (flat_map statementOf (create view))
  ++ maybeGenerateRfBlock 2 (flat_map statementOf (update view)).

(** The declaration that goes to the pool for a view. *)
Definition viewDecl (view : ViewCompilationUnit) : O.Statement :=
  O.DeclareFunctionStmt (fnName view) [lit "rf"; lit "ctx"] (viewBody view).

(** A view that [emitView] accepts. *)
Definition emittable (view : ViewCompilationUnit) : Prop :=
  fnName view <> None /\ lowered (create view) /\ lowered (update view).

Lemma collectStatements_returned notCompiled ops stmts :
  collectStatements notCompiled ops = Returned stmts ->
  lowered ops /\ stmts = flat_map statementOf ops.
Proof.
  intros H. destruct (lowered_or_not ops) as [L|L].
  - split; [exact L|]. rewrite (collectStatements_lowered _ L) in H. congruence.
  - destruct (collectStatements_notLowered notCompiled L) as (k & _ & E). congruence.
Qed.

Lemma emitView_returned view f :
  emitView view = Returned f ->
  emittable view
  /\ f = O.mkFn [lit "rf"; lit "ctx"] (viewBody view) (fnName view).
Proof.
  unfold emitView, emittable, viewBody.
  destruct (fnName view) as [name|]; [|discriminate].
  destruct (collectStatements CreateOpNotCompiled (create view)) as [cs| |] eqn:Ec;
    try discriminate.
  destruct (collectStatements UpdateOpNotCompiled (update view)) as [us| |] eqn:Eu;
    try discriminate.
  apply collectStatements_returned in Ec as [Lc ->].
  apply collectStatements_returned in Eu as [Lu ->].
  simpl. intros E. injection E as <-. repeat split; try assumption. discriminate.
Qed.

Lemma emitView_emittable view :
  emittable view ->
  emitView view
  = Returned (O.mkFn [lit "rf"; lit "ctx"] (viewBody view) (fnName view)).
Proof.
  intros (Hn & Lc & Lu). unfold emitView.
  destruct (fnName view) as [name|] eqn:E; [|congruence].
  now rewrite (collectStatements_lowered _ Lc), (collectStatements_lowered _ Lu).
Qed.

Variable job : ComponentCompilationJob.

(** What the loop of [emitChildViews] does for one unit. *)
Definition visit (depth : nat) (parent view : ViewCompilationUnit)
  : M ConstantPool unit :=
  if isChildOf view parent then
    bind (emitChildViews depth job view) (fun _ =>
    bind (pure_call (emitView view)) (fun viewFn =>
      push (O.toDeclStmt viewFn (O.name viewFn))))
  else ret tt.

Lemma emitChildViews_S depth parent :
  emitChildViews (S depth) job parent = forEach (units job) (visit depth parent).
Proof. reflexivity. Qed.

(** The views below [parent], children before their parent, in the order of
    [units]. *)
Fixpoint postorder (depth : nat) (parent : ViewCompilationUnit)
  : list ViewCompilationUnit :=
  match depth with
  | O => []
  | S depth' =>
      flat_map (fun unit =>
                  if isChildOf unit parent then postorder depth' unit ++ [unit] else [])
        (units job)
  end.

Lemma postorder_S depth parent :
  postorder (S depth) parent
  = flat_map (fun view =>
                if isChildOf view parent then postorder depth view ++ [view] else [])
      (units job).
Proof. reflexivity. Qed.

Inductive descendant : ViewCompilationUnit -> ViewCompilationUnit -> Prop :=
| descendant_child unit parent :
    In unit (units job) -> isChildOf unit parent = true -> descendant unit parent
| descendant_below unit child parent :
    descendant unit child ->
    In child (units job) -> isChildOf child parent = true -> descendant unit parent.

Lemma flat_map_split {A B} (g : A -> list B) (us : list A) l1 x l2 :
  flat_map g us = l1 ++ x :: l2 ->
  exists us1 c us2 a b,
    us = us1 ++ c :: us2 /\ g c = a ++ x :: b /\ l1 = flat_map g us1 ++ a.
Proof.
  revert l1. induction us as [|c us IH]; intros l1 H; simpl in H.
  - destruct l1; discriminate.
  - apply app_eq_app in H as (l & [[Hg Hx] | [Hl Hrest]]).
    + destruct l as [|y l].
      * simpl in Hx. symmetry in Hx.
        destruct (IH [] Hx) as (us1 & c' & us2 & a & b & -> & Hc & Hnil).
        exists (c :: us1), c', us2, a, b. repeat split; [exact Hc|].
        simpl. rewrite <- app_assoc, <- Hnil, Hg, !app_nil_r. reflexivity.
      * injection Hx as <- _.
        exists [], c, us, l1, l. repeat split. exact Hg.
    + destruct (IH l Hrest) as (us1 & c' & us2 & a & b & -> & Hc & ->).
      exists (c :: us1), c', us2, a, b. repeat split; [exact Hc|].
      simpl. now rewrite Hl, <- app_assoc.
Qed.

Lemma pool_eta (pool : ConstantPool) : pool = mkPool (statements pool).
Proof. now destruct pool. Qed.

(** When [emitChildViews] returns, it has pushed the declarations of the
    views below [parent], in the order of [postorder]. *)
Lemma emitChildViews_returned depth : forall parent pool pool',
  emitChildViews depth job parent pool = (Returned tt, pool') ->
  statements pool' = statements pool ++ map viewDecl (postorder depth parent).
Proof.
  induction depth as [|depth IH]; intros parent pool pool' H; [discriminate|].
  rewrite emitChildViews_S in H. rewrite postorder_S.
  revert pool pool' H.
  induction (units job) as [|u us IHus]; intros pool pool' H; simpl in H.
  - injection H as <-. simpl. now rewrite app_nil_r.
  - unfold bind at 1 in H.
    destruct (visit depth parent u pool) as [[[]|e|] pool1] eqn:Ev; try discriminate.
    apply IHus in H. rewrite H. simpl flat_map. rewrite map_app, app_assoc. f_equal.
    unfold visit in Ev. destruct (isChildOf u parent).
    + unfold bind, pure_call in Ev.
      destruct (emitChildViews depth job u pool) as [[[]|e|] pool0] eqn:E0;
        try discriminate.
      destruct (emitView u) as [f|e|] eqn:Ef; try discriminate.
      injection Ev as <-. simpl.
      apply IH in E0. rewrite E0, map_app, <- app_assoc. simpl.
      apply emitView_returned in Ef as [_ ->]. reflexivity.
    + injection Ev as <-. simpl. now rewrite app_nil_r.
Qed.

Lemma in_postorder depth : forall parent u,
  In u (postorder depth parent) -> In u (units job).
Proof.
  induction depth as [|depth IH]; intros parent u H; [contradiction|].
  rewrite postorder_S in H. apply in_flat_map in H as (c & Hc & Hu).
  destruct (isChildOf c parent); [|contradiction].
  apply in_app_iff in Hu as [Hu|[<-|[]]]; [now apply IH with c | exact Hc].
Qed.

(** *** Views that form a tree

    [rank] goes up from a parent to its children and is bounded on the units
    of the job: no view is its own ancestor. *)

Variable rank : XrefId -> nat.
Variable bound : nat.

Definition ranked : Prop :=
  forall u, In u (units job) ->
    rank (xref u) <= bound
    /\ forall p, parent u = Some p -> rank p < rank (xref u).

Definition deepEnough (depth : nat) (view : ViewCompilationUnit) : Prop :=
  bound < rank (xref view) + depth.

Hypothesis Hranked : ranked.

Lemma child_rank u p :
  In u (units job) -> isChildOf u p = true -> rank (xref p) < rank (xref u).
Proof.
  intros Hu Hc. unfold isChildOf in Hc.
  destruct (parent u) as [q|] eqn:E; [|discriminate].
  apply Nat.eqb_eq in Hc. subst q.
  pose proof Hranked as R. unfold ranked in R. now apply (R u Hu).
Qed.

Lemma deepEnough_child depth u p :
  In u (units job) -> isChildOf u p = true ->
  deepEnough (S depth) p -> deepEnough depth u.
Proof.
  intros Hu Hc Hd. pose proof (@child_rank u p Hu Hc).
  unfold deepEnough in *. lia.
Qed.

Lemma deepEnough_positive depth view :
  In view (units job) -> deepEnough depth view -> exists depth', depth = S depth'.
Proof.
  intros Hin Hd. pose proof Hranked as R. unfold ranked in R.
  destruct (R view Hin) as [Hb _].
  unfold deepEnough in Hd. destruct depth; [lia | eauto].
Qed.

(** With every view emittable and depth enough, [emitChildViews] returns. *)
Lemma emitChildViews_returns depth : forall parent pool,
  Forall emittable (units job) ->
  In parent (units job) -> deepEnough depth parent ->
  exists pool', emitChildViews depth job parent pool = (Returned tt, pool').
Proof.
  induction depth as [|depth IH]; intros parent pool Hall Hin Hd.
  - destruct (@deepEnough_positive _ _ Hin Hd); discriminate.
  - rewrite emitChildViews_S.
    assert (Hsub : incl (units job) (units job)) by apply incl_refl.
    revert pool Hsub. generalize (units job) at 1 3.
    induction l as [|u us IHus]; intros pool Hsub; simpl.
    + eexists; reflexivity.
    + assert (Hu : In u (units job)) by (apply Hsub; now left).
      assert (Ev : exists pool1, visit depth parent u pool = (Returned tt, pool1)).
      { unfold visit. destruct (isChildOf u parent) eqn:Hc; [|eexists; reflexivity].
        destruct (IH u pool Hall Hu (@deepEnough_child _ _ _ Hu Hc Hd)) as (pool0 & E0).
        unfold bind, pure_call. rewrite E0.
        rewrite Forall_forall in Hall.
        rewrite (@emitView_emittable u (Hall u Hu)). eexists; reflexivity. }
      destruct Ev as (pool1 & Ev). unfold bind at 1. rewrite Ev.
      apply IHus. intros x Hx. apply Hsub. now right.
Qed.

Lemma postorder_contains d p :
  descendant d p ->
  forall depth, In p (units job) -> deepEnough depth p -> In d (postorder depth p).
Proof.
  induction 1 as [d p Hd Hc | d c p Hdc IH Hcin Hc]; intros depth Hp Hdeep.
  - destruct (@deepEnough_positive _ _ Hp Hdeep) as (n & ->). rewrite postorder_S.
    apply in_flat_map. exists d. split; [exact Hd|].
    rewrite Hc. apply in_app_iff. right. now left.
  - destruct (@deepEnough_positive _ _ Hp Hdeep) as (n & ->). rewrite postorder_S.
    apply in_flat_map. exists c. split; [exact Hcin|].
    rewrite Hc. apply in_app_iff. left.
    apply IH; [exact Hcin | exact (@deepEnough_child _ _ _ Hcin Hc Hdeep)].
Qed.

(** In [postorder], whatever is below a view stands before it. *)
Lemma postorder_children_first depth : forall p l1 u l2,
  In p (units job) -> deepEnough depth p ->
  postorder depth p = l1 ++ u :: l2 ->
  forall d, descendant d u -> In d l1.
Proof.
  induction depth as [|depth IH]; intros p l1 u l2 Hp Hdeep E d Hd.
  - destruct l1; discriminate.
  - rewrite postorder_S in E.
    apply flat_map_split in E as (us1 & c & us2 & a & b & Hus & Hc & ->).
    assert (Hcin : In c (units job)) by (rewrite Hus; apply in_elt).
    destruct (isChildOf c p) eqn:Hchild; [|destruct a; discriminate].
    pose proof (@deepEnough_child _ _ _ Hcin Hchild Hdeep) as Hdc.
    apply in_app_iff. right.
    destruct b as [|z b' _] using rev_ind.
    + apply app_inj_tail in Hc as [<- <-].
      now apply postorder_contains.
    + change (a ++ u :: b' ++ [z]) with (a ++ (u :: b') ++ [z]) in Hc.
      rewrite app_assoc in Hc. apply app_inj_tail in Hc as [Hc _].
      exact (IH c a u b' Hcin Hdc Hc d Hd).
Qed.

(** More depth than enough changes nothing. *)
Lemma postorder_deeper depth : forall p,
  In p (units job) -> deepEnough depth p ->
  postorder (S depth) p = postorder depth p.
Proof.
  induction depth as [|depth IH]; intros p Hp Hd.
  - destruct (@deepEnough_positive _ _ Hp Hd); discriminate.
  - rewrite (postorder_S (S depth)), (postorder_S depth).
    rewrite !flat_map_concat_map. f_equal. apply map_ext_in. intros c Hc.
    destruct (isChildOf c p) eqn:Hchild; [|reflexivity].
    now rewrite IH by (auto; exact (@deepEnough_child _ _ _ Hc Hchild Hd)).
Qed.

(** C8. For a template job whose views form a tree and are all named and
    lowered, [emitTemplateFn] returns the function of the root view, and
    appends to the pool one declaration for each view below the root, those
    of all the views below a view before the declaration of the view
    itself. *)
Theorem emitTemplateFn_children_first (depth : nat) (pool : ConstantPool) :
  Forall emittable (units job) ->
  deepEnough depth (root job) ->
  exists rootFn,
    emitView (root job) = Returned rootFn
    /\ emitTemplateFn depth job pool
       = (Returned rootFn,
          mkPool (statements pool ++ map viewDecl (postorder depth (root job))))
    /\ (forall view, descendant view (root job) ->
          In view (postorder depth (root job)))
    /\ (forall before view after,
          postorder depth (root job) = before ++ view :: after ->
          forall below, descendant below view -> In below before).
Proof.
  intros Hall Hd.
  assert (Hroot : In (root job) (units job)) by now left.
  pose proof Hall as Hall'. rewrite Forall_forall in Hall'.
  exists (O.mkFn [lit "rf"; lit "ctx"] (viewBody (root job)) (fnName (root job))).
  pose proof (@emitView_emittable _ (Hall' _ Hroot)) as Er.
  split; [exact Er|]. split; [|split].
  - unfold emitTemplateFn, bind, pure_call. rewrite Er.
    destruct (@emitChildViews_returns depth (root job) pool Hall Hroot Hd) as (pool' & E).
    rewrite E. f_equal.
    apply emitChildViews_returned in E.
    rewrite (pool_eta pool'). now rewrite E.
  - intros view Hv. now apply (@postorder_contains view (root job)).
  - intros before view after E below Hb.
    exact (@postorder_children_first depth (root job) before view after Hroot Hd E below Hb).
Qed.

End EmitTemplate.

Definition nested_job : Ir.ComponentCompilationJob :=
  Ir.mkJob
    (Ir.mkView 0 None (Some (lit "Cmp_Template")) [] [])
    [ Ir.mkView 1 (Some 0) (Some (lit "Cmp_For_0_Template"))
        [Ir.StatementOp (O.ReifiedStmt (lit "text(0)"))] [];
      Ir.mkView 2 (Some 1) (Some (lit "Cmp_For_0_If_1_Template")) [] [];
      Ir.mkView 3 (Some 0) (Some (lit "Cmp_If_2_Template")) [] [] ].

Lemma emitTemplateFn_children_first_witness :
  exists rootFn,
    fst (Emit.emitTemplateFn 4 nested_job (Emit.mkPool [])) = Returned rootFn
    /\ O.name rootFn = Some (lit "Cmp_Template").
Proof.
  assert (R : ranked nested_job (fun x => x) 3).
  { intros u Hu. simpl in Hu.
    repeat (destruct Hu as [<-|Hu]; [simpl; split; [lia | intros p E; inversion E; lia]|]).
    contradiction. }
  assert (A : Forall emittable (Ir.units nested_job)).
  { repeat constructor; discriminate. }
  assert (D : deepEnough (fun x => x) 3 4 (Ir.root nested_job)) by (unfold deepEnough; simpl; lia).
  destruct (@emitTemplateFn_children_first nested_job (fun x => x) 3 R 4 (Emit.mkPool []) A D)
    as (rootFn & Er & E & _).
  exists rootFn. rewrite E. split; [reflexivity|].
  vm_compute in Er. injection Er as <-. reflexivity.
Defined.

(** ** More on the serialization of a value *)

Section FormatValueFlags.
Import I18n.

(** The value with other flags. *)
Definition withFlags (fl : Z) (v : I18nParamValue) : I18nParamValue :=
  mkValue (value v) (subTemplateIndex v) fl.

Lemma formatValue_same_tests v w :
  value v = value w -> subTemplateIndex v = subTemplateIndex w ->
  has (flags v) ElementTag = has (flags w) ElementTag ->
  has (flags v) TemplateTag = has (flags w) TemplateTag ->
  has (flags v) OpenTag = has (flags w) OpenTag ->
  has (flags v) CloseTag = has (flags w) CloseTag ->
  formatValue v = formatValue w.
Proof.
  intros Hv Hs He Ht Ho Hc.
  unfold formatValue, closeMarker, tagMarker, context.
  now rewrite Hv, Hs, He, Ht, Ho, Hc.
Qed.

Lemma has_low_bits fl mask :
  Z.land 15 mask = mask -> has (Z.land fl 15) mask = has fl mask.
Proof.
  intros H. unfold has. now rewrite <- Z.land_assoc, H.
Qed.

(** X1. Of the flags of a value, [formatValue] reads the four low bits and
    nothing else: any other bit may be set or cleared without changing the
    result. *)
Theorem formatValue_reads_four_bits (v : I18nParamValue) (fl : Z) :
  Z.land fl 15 = Z.land (flags v) 15 ->
  formatValue (withFlags fl v) = formatValue v.
Proof.
  intros H.
  assert (T : forall mask, Z.land 15 mask = mask -> has fl mask = has (flags v) mask).
  { intros mask Hm. rewrite <- (has_low_bits fl Hm), <- (has_low_bits (flags v) Hm).
    now rewrite H. }
  apply formatValue_same_tests; try reflexivity; simpl; apply T; reflexivity.
Qed.

Lemma formatValue_reads_four_bits_witness :
  formatValue (mkValue (StrValue (lit "x")) None (ElementTag + CloseTag + 4096))
  = formatValue (mkValue (StrValue (lit "x")) None (ElementTag + CloseTag)).
Proof.
  apply (@formatValue_reads_four_bits
           (mkValue (StrValue (lit "x")) None (ElementTag + CloseTag))
           (ElementTag + CloseTag + 4096)).
  reflexivity.
Defined.

(** X2. The element tag wins over the template tag: on a value flagged as
    an element tag, the template-tag flag changes nothing. *)
Theorem formatValue_element_over_template (v : I18nParamValue) :
  has (flags v) ElementTag = true ->
  formatValue (without TemplateTag v) = formatValue v
  /\ tagMarker v = ELEMENT_MARKER.
Proof.
  intros He. split.
  - unfold formatValue, closeMarker, tagMarker, context, without. simpl.
    rewrite (@has_ldiff_other (flags v) TemplateTag ElementTag) by reflexivity.
    rewrite (@has_ldiff_other (flags v) TemplateTag OpenTag) by reflexivity.
    rewrite (@has_ldiff_other (flags v) TemplateTag CloseTag) by reflexivity.
    now rewrite He.
  - unfold tagMarker. now rewrite He.
Qed.

Lemma formatValue_element_over_template_witness :
  formatValue (mkValue (NumValue 2) None (ElementTag + TemplateTag + OpenTag))
  = [65533; 35; 50; 65533]%N.
Proof.
  rewrite <- (proj1 (@formatValue_element_over_template
             (mkValue (NumValue 2) None (ElementTag + TemplateTag + OpenTag)) eq_refl)).
  reflexivity.
Defined.

(** X3. The open-tag flag has no marker of its own: on a value that is not
    flagged as a close tag, it changes nothing. *)
Theorem formatValue_open_alone (v : I18nParamValue) :
  has (flags v) CloseTag = false ->
  formatValue (without OpenTag v) = formatValue v.
Proof.
  intros Hc. unfold formatValue, closeMarker, tagMarker, context, without. simpl.
  rewrite (@has_ldiff_other (flags v) OpenTag ElementTag) by reflexivity.
  rewrite (@has_ldiff_other (flags v) OpenTag TemplateTag) by reflexivity.
  rewrite (@has_ldiff_other (flags v) OpenTag CloseTag) by reflexivity.
  rewrite Hc, !andb_false_r. reflexivity.
Qed.

Lemma formatValue_open_alone_witness :
  formatValue (mkValue (NumValue 2) (Some 1%Z) (TemplateTag + OpenTag))
  = formatValue (mkValue (NumValue 2) (Some 1%Z) TemplateTag).
Proof.
  rewrite <- (@formatValue_open_alone
                (mkValue (NumValue 2) (Some 1%Z) (TemplateTag + OpenTag)) eq_refl).
  reflexivity.
Defined.

End FormatValueFlags.

(** ** More on [formatParams] *)

Section FormatParamsMore.
Import I18n I18nFormat.

Lemma formatParamValues_null values : formatParamValues values = None <-> values = [].
Proof.
  rewrite formatParamValues_cases.
  destruct values as [|v1 [|v2 rest]]; split; congruence.
Qed.

Lemma in_flat_map_formatEntry (l : JsMap.t (list I18nParamValue)) k e :
  In (k, e) (flat_map formatEntry l)
  <-> exists values s,
        In (k, values) l /\ formatParamValues values = Some s
        /\ e = O.literal (O.LitString s).
Proof.
  rewrite in_flat_map. split.
  - intros ([k0 vs] & Hin & He). unfold formatEntry in He. simpl in He.
    destruct (formatParamValues vs) as [s|] eqn:E; [|contradiction].
    destruct He as [He|[]]. injection He as -> <-. now exists vs, s.
  - intros (vs & s & Hin & E & ->). exists (k, vs). split; [exact Hin|].
    unfold formatEntry. simpl. rewrite E. now left.
Qed.

Lemma NoDup_keys_flat_map_formatEntry (l : JsMap.t (list I18nParamValue)) :
  NoDup (JsMap.keys l) -> NoDup (JsMap.keys (flat_map formatEntry l)).
Proof.
  induction l as [|e l IH]; simpl; intros H; [constructor|].
  inversion H as [|? ? Hnotin Hnd]; subst.
  rewrite keys_app. unfold formatEntry at 1.
  destruct (formatParamValues (snd e)); simpl; [|now apply IH].
  constructor; [|now apply IH].
  intros Hk. apply Hnotin. now apply keys_flat_map_formatEntry.
Qed.

Lemma get_in {V} (m : JsMap.t V) k v : JsMap.get m k = Some v -> In (k, v) m.
Proof.
  induction m as [|[k' v'] m IH]; simpl; [discriminate|].
  destruct (JsString.eqb k' k) eqn:E.
  - apply eqb_eq in E. subst k'. intros H. injection H as ->. now left.
  - intros H. right. now apply IH.
Qed.

(** X4. From a map, [formatParams] makes a map again; its placeholders are
    those of the argument that have at least one value, and each is bound
    to a string literal, never to a null literal. *)
Theorem formatParams_keys (params : JsMap.t (list I18nParamValue)) :
  JsMap.wf params ->
  JsMap.wf (formatParams params)
  /\ (forall placeholder,
        In placeholder (JsMap.keys (formatParams params))
        <-> exists values, In (placeholder, values) params /\ values <> [])
  /\ (forall placeholder e,
        JsMap.get (formatParams params) placeholder = Some e ->
        exists s, e = O.literal (O.LitString s)).
Proof.
  intros Hwf.
  assert (P : Permutation (sort entryToString params) params) by apply sort_perm.
  assert (Hnd : NoDup (JsMap.keys (sort entryToString params))).
  { apply (Permutation_NoDup (l := JsMap.keys params)); [|exact Hwf].
    apply Permutation_map, Permutation_sym, P. }
  rewrite formatParams_sorted_entries by exact Hwf.
  split; [|split].
  - now apply NoDup_keys_flat_map_formatEntry.
  - intros k. unfold JsMap.keys at 1. rewrite in_map_iff. split.
    + intros ([k' e] & <- & Hin). apply in_flat_map_formatEntry in Hin
        as (vs & s & Hin & E & _).
      exists vs. split; [now apply (Permutation_in _ P)|].
      intros ->. discriminate.
    + intros (vs & Hin & Hne).
      destruct (formatParamValues vs) as [s|] eqn:E;
        [|now apply formatParamValues_null in E].
      exists (k, O.literal (O.LitString s)). split; [reflexivity|].
      apply in_flat_map_formatEntry. exists vs, s.
      split; [now apply (Permutation_in _ (Permutation_sym P)) | now split].
  - intros k e Hget. apply get_in, in_flat_map_formatEntry in Hget
      as (vs & s & _ & _ & ->). now exists s.
Qed.

Lemma three_params_wf : JsMap.wf three_params.
Proof.
  unfold JsMap.wf. vm_compute.
  repeat (constructor; [simpl; intuition discriminate|]). constructor.
Qed.

Lemma formatParams_keys_witness :
  In (lit "START_TAG_DIV") (JsMap.keys (formatParams three_params))
  /\ ~ In (lit "CLOSE_TAG_DIV") (JsMap.keys (formatParams three_params)).
Proof.
  destruct (@formatParams_keys three_params three_params_wf) as (_ & K & _).
  split.
  - apply K. eexists. split; [left; reflexivity | discriminate].
  - intros H. apply K in H as (vs & Hin & Hne).
    simpl in Hin. destruct Hin as [E|[E|[E|[]]]]; try discriminate.
    injection E as <-. now apply Hne.
Defined.

(** X5. When every code unit of every placeholder comes after the comma
    (as in names made of letters, digits and underscores), the placeholders
    of the formatted map stand in ascending order. *)
Theorem formatParams_ascending (params : JsMap.t (list I18nParamValue)) :
  JsMap.wf params ->
  Forall plain (JsMap.keys params) ->
  ascending (JsMap.keys (formatParams params)).
Proof.
  intros Hwf Hpl.
  assert (P : Permutation (JsMap.keys (sort entryToString params)) (JsMap.keys params))
    by (apply Permutation_map, sort_perm).
  rewrite formatParams_sorted_entries by exact Hwf.
  apply keys_formatted_ascending.
  - apply sort_inOrder.
  - apply (Permutation_NoDup (Permutation_sym P)), Hwf.
  - rewrite Forall_forall in *. intros k Hk. apply Hpl.
    now apply (Permutation_in _ P).
Qed.

Lemma three_params_plain : Forall plain (JsMap.keys three_params).
Proof.
  vm_compute. repeat (constructor; [repeat (constructor; [reflexivity|]); constructor|]).
  constructor.
Qed.

Lemma formatParams_ascending_witness :
  ascending (JsMap.keys (formatParams three_params)).
Proof.
  exact (@formatParams_ascending three_params three_params_wf three_params_plain).
Defined.

End FormatParamsMore.

Section InsertionOrder.
Import I18n I18nFormat.

Definition byPlaceholder (a b : jsstring * list I18nParamValue) : Prop :=
  JsString.ltb (fst a) (fst b) = true.

(** Entries with distinct plain placeholders, in the order of the default
    sort, are in strictly ascending order of placeholder. *)
Lemma inOrder_byPlaceholder (l : JsMap.t (list I18nParamValue)) :
  inOrder entryToString l ->
  NoDup (JsMap.keys l) ->
  Forall plain (JsMap.keys l) ->
  StronglySorted byPlaceholder l.
Proof.
  unfold inOrder.
  induction 1 as [|e l Hs IH Hall]; simpl; intros Hnd Hpl; [constructor|].
  inversion Hnd as [|? ? Hnotin Hnd']; subst.
  inversion Hpl as [|? ? Hpe Hpl']; subst.
  constructor; [now apply IH|].
  rewrite Forall_forall in *. intros e' He'.
  assert (Hk : In (fst e') (JsMap.keys l)) by now apply in_map.
  assert (Hne : fst e <> fst e') by (intros E; apply Hnotin; now rewrite E).
  specialize (Hall e' He'). unfold keeps in Hall. apply negb_true_iff in Hall.
  rewrite !entryToString_unfold, ltb_entries_plain in Hall by auto.
  unfold byPlaceholder.
  destruct (JsString.ltb (fst e) (fst e')) eqn:E; [reflexivity|].
  exfalso. apply Hne. now apply ltb_total.
Qed.

(** Two lists in strictly ascending order with the same elements are the
    same list. *)
Lemma byPlaceholder_unique (l1 : JsMap.t (list I18nParamValue)) : forall l2,
  StronglySorted byPlaceholder l1 ->
  StronglySorted byPlaceholder l2 ->
  Permutation l1 l2 -> l1 = l2.
Proof.
  induction l1 as [|x l1 IH]; intros l2 S1 S2 P.
  - apply Permutation_nil in P. now subst.
  - destruct l2 as [|y l2]; [apply Permutation_sym, Permutation_nil in P; discriminate|].
    inversion S1 as [|? ? S1' F1]; subst. inversion S2 as [|? ? S2' F2]; subst.
    rewrite Forall_forall in F1, F2.
    assert (x = y).
    { assert (Hx : In x (y :: l2)) by (apply (Permutation_in _ P); now left).
      assert (Hy : In y (x :: l1))
        by (apply (Permutation_in _ (Permutation_sym P)); now left).
      destruct Hx as [Hx|Hx]; [now symmetry|].
      destruct Hy as [Hy|Hy]; [exact Hy|].
      pose proof (F2 x Hx) as A. pose proof (F1 y Hy) as B.
      unfold byPlaceholder in A, B.
      rewrite (ltb_asym _ _ A) in B. discriminate. }
    subst y. f_equal. apply IH; try assumption.
    now apply Permutation_cons_inv with x.
Qed.

(** X6. For plain placeholders the result of [formatParams] does not depend
    on the order in which the entries were put into the map. *)
Theorem formatParams_insertion_order (params params' : JsMap.t (list I18nParamValue)) :
  JsMap.wf params ->
  Forall plain (JsMap.keys params) ->
  Permutation params params' ->
  formatParams params' = formatParams params.
Proof.
  intros Hwf Hpl P.
  assert (PK : Permutation (JsMap.keys params) (JsMap.keys params'))
    by now apply Permutation_map.
  assert (Hwf' : JsMap.wf params') by exact (Permutation_NoDup PK Hwf).
  assert (Hpl' : Forall plain (JsMap.keys params')).
  { rewrite Forall_forall in *. intros k Hk. apply Hpl.
    now apply (Permutation_in _ (Permutation_sym PK)). }
  rewrite !formatParams_sorted_entries by assumption.
  f_equal. apply byPlaceholder_unique.
  - apply inOrder_byPlaceholder; [apply sort_inOrder | |].
    + apply (Permutation_NoDup (l := JsMap.keys params')); [|exact Hwf'].
      apply Permutation_map, Permutation_sym, sort_perm.
    + rewrite Forall_forall in *. intros k Hk. apply Hpl'.
      revert Hk. apply Permutation_in, Permutation_map, sort_perm.
  - apply inOrder_byPlaceholder; [apply sort_inOrder | |].
    + apply (Permutation_NoDup (l := JsMap.keys params)); [|exact Hwf].
      apply Permutation_map, Permutation_sym, sort_perm.
    + rewrite Forall_forall in *. intros k Hk. apply Hpl.
      revert Hk. apply Permutation_in, Permutation_map, sort_perm.
  - rewrite (sort_perm entryToString params'), (sort_perm entryToString params).
    now apply Permutation_sym.
Qed.

Lemma formatParams_insertion_order_witness :
  formatParams (rev three_params) = formatParams three_params.
Proof.
  apply (@formatParams_insertion_order three_params (rev three_params)
           three_params_wf three_params_plain).
  apply Permutation_rev.
Defined.

End InsertionOrder.

(** ** More on the phase [formatI18nParams] *)

Section FormatPhaseMore.
Import I18n I18nFormat Ir FormatPhase.

(** An operation that the phase has to format. *)
Definition isRootMessage (op : Op) : bool :=
  match op with
  | ExtractedMessageOp_ m => isRoot m
  | _ => false
  end.

Lemma formatOp_kind op : kind (formatOp op) = kind op.
Proof.
  destruct op as [s|m|n]; simpl; try reflexivity. now destruct (isRoot m).
Qed.

Lemma formatOp_other op : isRootMessage op = false -> formatOp op = op.
Proof.
  destruct op as [s|m|n]; simpl; try reflexivity. now intros ->.
Qed.

(** X7. [formatI18nParams] keeps the units of the job in place, with their
    xref, parent, function name and update list; in a create list it keeps
    the number and the kinds of the operations, and every operation other
    than a root extracted message as it is. *)
Theorem formatI18nParams_frame (job : ComponentCompilationJob) (i : nat)
    (view : ViewCompilationUnit) :
  nth_error (units job) i = Some view ->
  exists view',
    nth_error (units (formatI18nParams job)) i = Some view'
    /\ List.length (units (formatI18nParams job)) = List.length (units job)
    /\ xref view' = xref view /\ parent view' = parent view
    /\ fnName view' = fnName view /\ update view' = update view
    /\ map kind (create view') = map kind (create view)
    /\ (forall j op, nth_error (create view) j = Some op ->
          isRootMessage op = false ->
          nth_error (create view') j = Some op).
Proof.
  intros Hu. exists (formatUnit view).
  rewrite units_formatI18nParams.
  split; [now apply map_nth_error|].
  split; [apply length_map|].
  repeat (split; [reflexivity|]).
  split.
  - simpl. rewrite map_map. apply map_ext. apply formatOp_kind.
  - intros j op Hop Hroot. simpl.
    rewrite (map_nth_error formatOp _ _ Hop). now rewrite formatOp_other.
Qed.

Definition nested_message : ExtractedMessageOp :=
  mkMessage false [(lit "INTERPOLATION", [mkValue (NumValue 0) None 0])] [] None None false.

Definition job_with_nested_message : ComponentCompilationJob :=
  mkJob (mkView 0 None None [] [])
        [mkView 1 (Some 0) None
           [ExtractedMessageOp_ nested_message; ExtractedMessageOp_ message_with_two_values]
           [OtherOp 5]].

Lemma formatI18nParams_frame_witness :
  exists view',
    nth_error (units (formatI18nParams job_with_nested_message)) 1 = Some view'
    /\ update view' = [OtherOp 5]
    /\ nth_error (create view') 0 = Some (ExtractedMessageOp_ nested_message).
Proof.
  destruct (@formatI18nParams_frame job_with_nested_message 1
              (mkView 1 (Some 0) None
                 [ExtractedMessageOp_ nested_message;
                  ExtractedMessageOp_ message_with_two_values]
                 [OtherOp 5]) eq_refl)
    as (view' & Hv & _ & _ & _ & _ & Hu & _ & Hops).
  exists view'. split; [exact Hv|]. split; [exact Hu|].
  apply Hops; reflexivity.
Defined.

Lemma formatOp_again op : formatOp (formatOp op) = formatOp op.
Proof.
  destruct op as [s|m|n]; simpl; try reflexivity.
  destruct (isRoot m) eqn:E; simpl; now rewrite E.
Qed.

(** X8. Running [formatI18nParams] a second time changes nothing: the
    phase reads the params, which it leaves as they are, and writes the
    formatted maps and the flag anew. *)
Theorem formatI18nParams_again (job : ComponentCompilationJob) :
  formatI18nParams (formatI18nParams job) = formatI18nParams job.
Proof.
  assert (U : forall view, formatUnit (formatUnit view) = formatUnit view).
  { intros view. unfold formatUnit. simpl. f_equal.
    rewrite map_map. apply map_ext, formatOp_again. }
  unfold formatI18nParams. simpl. f_equal; [apply U|].
  rewrite map_map. apply map_ext, U.
Qed.

End FormatPhaseMore.

(** ** More on the driver *)

Section ForEachFacts.
Variables S A : Type.
Variable body : A -> M S unit.

Lemma forEach_app (l1 l2 : list A) (s : S) :
  forEach (l1 ++ l2) body s
  = match forEach l1 body s with
    | (Returned _, s1) => forEach l2 body s1
    | other => other
    end.
Proof.
  revert s. induction l1 as [|x l1 IH]; intros s; simpl; [reflexivity|].
  unfold bind. destruct (body x s) as [[[]|e|] s1]; [apply IH | reflexivity | reflexivity].
Qed.

(** A loop that throws: some element threw, after the elements before it
    had returned, and the object is as that element left it. *)
Lemma forEach_thrown (l : list A) : forall s e s',
  forEach l body s = (Thrown e, s') ->
  exists before x after s0,
    l = before ++ x :: after
    /\ forEach before body s = (Returned tt, s0)
    /\ body x s0 = (Thrown e, s').
Proof.
  induction l as [|x l IH]; intros s e s' H; simpl in H; [discriminate|].
  unfold bind in H. destruct (body x s) as [[[]|e0|] s1] eqn:E; try discriminate.
  - apply IH in H as (before & y & after & s0 & -> & Hb & Hy).
    exists (x :: before), y, after, s0. repeat split; [|exact Hy].
    simpl. unfold bind. now rewrite E.
  - injection H as -> ->. exists [], x, l, s. now repeat split.
Qed.

End ForEachFacts.

Section RunIsForEach.
Import Pipeline.
Variable Job : Type.
Variable call : PhaseFn -> M Job unit.

Lemma runPhases_forEach (jobKind : Kind) (ps : list Phase) (job : Job) :
  runPhases call ps jobKind job
  = forEach (map fn (filter (applies jobKind) ps)) call job.
Proof.
  revert job. induction ps as [|phase ps IH]; intros job; simpl; [reflexivity|].
  destruct (applies jobKind phase); simpl; [|apply IH].
  unfold bind. destruct (call (fn phase) job) as [[[]|e|] job1]; auto.
Qed.

End RunIsForEach.

Section Calls.
Import Pipeline.
Variable Job : Type.
Variable call : PhaseFn -> M Job unit.

(** The phases of a list that get called, on a job. *)
Fixpoint calls (l : list PhaseFn) (job : Job) : list PhaseFn :=
  match l with
  | [] => []
  | f :: l' =>
      f :: match call f job with
           | (Returned _, job1) => calls l' job1
           | _ => []
           end
  end.

Lemma forEach_journaled (l : list PhaseFn) : forall job journal,
  forEach l (journaled call) (job, journal)
  = (fst (forEach l call job), (snd (forEach l call job), journal ++ calls l job)).
Proof.
  induction l as [|f l IH]; intros job journal; simpl.
  - now rewrite app_nil_r.
  - unfold bind. rewrite journaled_call.
    destruct (call f job) as [[[]|e|] job1]; simpl; try reflexivity.
    rewrite IH, <- app_assoc. reflexivity.
Qed.

Lemma calls_thrown (before after : list PhaseFn) f : forall job job0 job' e,
  forEach before call job = (Returned tt, job0) ->
  call f job0 = (Thrown e, job') ->
  calls (before ++ f :: after) job = before ++ [f].
Proof.
  induction before as [|g before IH]; intros job job0 job' e Hb Hf; simpl in *.
  - injection Hb as ->. now rewrite Hf.
  - unfold bind in Hb. destruct (call g job) as [[[]|e0|] job1]; try discriminate.
    f_equal. now apply IH with job0 job' e.
Qed.

Lemma runPhases_thrown (jobKind : Kind) (ps : list Phase) (job job' : Job) (e : Error) :
  runPhases call ps jobKind job = (Thrown e, job') ->
  exists before f after job0,
    map fn (filter (applies jobKind) ps) = before ++ f :: after
    /\ forEach before call job = (Returned tt, job0)
    /\ call f job0 = (Thrown e, job')
    /\ snd (snd (runPhases (journaled call) ps jobKind (job, []))) = before ++ [f].
Proof.
  intros H. rewrite runPhases_forEach in H.
  apply forEach_thrown in H as (before & f & after & job0 & Happ & Hb & Hf).
  exists before, f, after, job0.
  split; [exact Happ|]. split; [exact Hb|]. split; [exact Hf|].
  rewrite runPhases_forEach, forEach_journaled, Happ.
  exact (@calls_thrown before after f job job0 job' e Hb Hf).
Qed.

End Calls.

Section DriverMore.
Import Pipeline.
Variable Job : Type.
Variable call : PhaseFn -> M Job unit.

(** X9. [transform] is the phases registered for the job kind or for both
    kinds, called one after the other on the job, each on the job as the
    one before left it. *)
Theorem transform_is_sequence (jobKind : Kind) (job : Job) :
  transform call jobKind job = forEach (applicable jobKind) call job.
Proof. apply runPhases_forEach. Qed.

(** X10. When [transform] throws, one of the phases registered for the job
    threw that error, after all those registered before it had returned;
    no phase after it is called, and the job is left as the throwing phase
    left it. *)
Theorem transform_thrown (jobKind : Kind) (job job' : Job) (e : Error) :
  transform call jobKind job = (Thrown e, job') ->
  exists before f after job0,
    applicable jobKind = before ++ f :: after
    /\ forEach before call job = (Returned tt, job0)
    /\ call f job0 = (Thrown e, job')
    /\ snd (snd (transform (journaled call) jobKind (job, []))) = before ++ [f].
Proof. exact (@runPhases_thrown Job call jobKind phases job job' e). Qed.

End DriverMore.

(** A template job on which [formatI18nParams] throws: the phases before
    it have run, no phase after it. *)
Definition throwing_call (f : Pipeline.PhaseFn) : M nat unit :=
  match f with
  | Pipeline.formatI18nParams => fun job => (Thrown (PhaseError (lit "boom")), job)
  | _ => mutate S
  end.

Lemma transform_thrown_witness :
  exists before after,
    applicable Pipeline.Tmpl = before ++ Pipeline.formatI18nParams :: after
    /\ snd (snd (Pipeline.transform (Pipeline.journaled throwing_call)
                   Pipeline.Tmpl (0, [])))
       = before ++ [Pipeline.formatI18nParams].
Proof.
  destruct (@transform_thrown nat throwing_call Pipeline.Tmpl 0 40
              (PhaseError (lit "boom")))
    as (before & f & after & job0 & Happ & Hb & Hf & Hj).
  { vm_compute. reflexivity. }
  assert (f = Pipeline.formatI18nParams).
  { clear Happ Hb Hj. destruct f; try (vm_compute in Hf; discriminate Hf). reflexivity. }
  subst f. exists before, after. split; [exact Happ | exact Hj].
Defined.

(** ** More on the emission of one unit *)

Section EmitOneMore.
Import Ir Emit.

(** The kind of the first operation of a list that is not a statement. *)
Fixpoint firstNotLowered (ops : list Op) : option OpKind :=
  match ops with
  | [] => None
  | StatementOp _ :: rest => firstNotLowered rest
  | op :: _ => Some (kind op)
  end.

Lemma firstNotLowered_none ops : firstNotLowered ops = None <-> lowered ops.
Proof.
  unfold lowered. induction ops as [|op ops IH]; simpl.
  - split; [constructor | reflexivity].
  - destruct op; simpl.
    + rewrite IH. split; [now constructor | now inversion 1].
    + split; [discriminate | inversion 1; discriminate].
    + split; [discriminate | inversion 1; discriminate].
Qed.

Lemma firstNotLowered_some ops k :
  firstNotLowered ops = Some k
  <-> exists before op after,
        ops = before ++ op :: after /\ lowered before
        /\ kind op = k /\ k <> Statement.
Proof.
  unfold lowered. induction ops as [|op ops IH]; simpl.
  - split; [discriminate | intros (b & o & a & E & _)]. destruct b; discriminate.
  - split.
    + destruct op as [s|m|n]; intros H.
      * apply IH in H as (b & o & a & -> & Hb & Hk & Hne).
        exists (StatementOp s :: b), o, a. repeat split; auto.
      * injection H as <-. exists [], (ExtractedMessageOp_ m), ops.
        repeat split; auto; discriminate.
      * injection H as <-. exists [], (OtherOp n), ops.
        repeat split; auto; discriminate.
    + intros (b & o & a & E & Hb & Hk & Hne).
      destruct b as [|b0 b]; simpl in E; injection E as -> ->.
      * destruct o; simpl in *; congruence.
      * inversion Hb as [|? ? Hb0 Hb']; subst.
        destruct b0; simpl in Hb0; try discriminate.
        apply IH. exists b, o, a. repeat split; auto.
Qed.

Lemma collectStatements_spec notCompiled ops :
  collectStatements notCompiled ops
  = match firstNotLowered ops with
    | Some k => Thrown (notCompiled k)
    | None => Returned (flat_map statementOf ops)
    end.
Proof.
  induction ops as [|op ops IH]; simpl; [reflexivity|].
  destruct op; simpl; try reflexivity.
  rewrite IH. now destruct (firstNotLowered ops).
Qed.

(** X11. What [emitView] answers, and which error comes first: an unnamed
    view throws the unnamed-view error whatever its lists hold; otherwise
    the first operation of the create list that is not a statement throws
    the create error with its kind; otherwise the first such operation of
    the update list throws the update error with its kind; otherwise the
    function is returned, with the parameters [rf] and [ctx], the name of the
    view, and the create block followed by the update block. *)
Theorem emitView_outcome (view : ViewCompilationUnit) :
  (fnName view = None -> emitView view = Thrown (ViewUnnamed (xref view)))
  /\ (forall k, fnName view <> None -> firstNotLowered (create view) = Some k ->
        emitView view = Thrown (CreateOpNotCompiled k))
  /\ (forall k, fnName view <> None -> lowered (create view) ->
        firstNotLowered (update view) = Some k ->
        emitView view = Thrown (UpdateOpNotCompiled k))
  /\ (fnName view <> None -> lowered (create view) -> lowered (update view) ->
        emitView view
        = Returned (O.mkFn [lit "rf"; lit "ctx"]
                      (maybeGenerateRfBlock 1 (flat_map statementOf (create view))
                       ++ maybeGenerateRfBlock 2 (flat_map statementOf (update view)))
                      (fnName view))).
Proof.
  unfold emitView. rewrite !collectStatements_spec.
  split; [|split; [|split]].
  - now intros ->.
  - intros k Hn Hc. destruct (fnName view); [|congruence]. now rewrite Hc.
  - intros k Hn Hc Hu. destruct (fnName view); [|congruence].
    apply firstNotLowered_none in Hc. now rewrite Hc, Hu.
  - intros Hn Hc Hu. destruct (fnName view); [|congruence].
    apply firstNotLowered_none in Hc, Hu. now rewrite Hc, Hu.
Qed.

Definition twice_unlowered_view : ViewCompilationUnit :=
  mkView 0 None (Some (lit "Cmp_Template"))
    [StatementOp (O.ReifiedStmt (lit "a")); OtherOp 7; OtherOp 8] [OtherOp 9].

Lemma emitView_outcome_witness :
  emitView twice_unlowered_view = Thrown (CreateOpNotCompiled (OtherKind 7)).
Proof.
  apply (proj1 (proj2 (emitView_outcome twice_unlowered_view))).
  - discriminate.
  - reflexivity.
Defined.

(** A host-binding unit, seen as a view without parent. *)
Definition asView (unit : HostBindingCompilationUnit) : ViewCompilationUnit :=
  mkView (host_xref unit) None (host_fnName unit) (host_create unit) (host_update unit).

(** X12. [emitHostBindingFunction] answers as [emitView] does on the same
    name and lists, but for two things: the error of an unnamed unit is the
    host-binding one, and where both lists are empty the answer is [null]
    and not a function with an empty body. *)
Theorem emitHostBindingFunction_as_emitView (job : HostBindingCompilationJob) :
  emitHostBindingFunction job
  = match emitView (asView (host_root job)) with
    | Returned f =>
        match host_create (host_root job), host_update (host_root job) with
        | [], [] => Returned None
        | _, _ => Returned (Some f)
        end
    | Thrown (ViewUnnamed _) => Thrown HostBindingUnnamed
    | Thrown e => Thrown e
    | NoAnswer => NoAnswer
    end.
Proof.
  unfold emitHostBindingFunction, emitView, asView. simpl.
  destruct (host_fnName (host_root job)) as [name|]; [|reflexivity].
  rewrite !collectStatements_spec.
  destruct (firstNotLowered (host_create (host_root job))) as [k|] eqn:Ec;
    [reflexivity|].
  destruct (firstNotLowered (host_update (host_root job))) as [k|] eqn:Eu;
    [reflexivity|].
  simpl.
  apply firstNotLowered_none in Ec, Eu.
  destruct (host_create (host_root job)) as [|c cs].
  - destruct (host_update (host_root job)) as [|u us]; [reflexivity|].
    inversion Eu as [|? ? Hu _]; subst. destruct u; simpl in Hu; try discriminate.
    reflexivity.
  - inversion Ec as [|? ? Hc _]; subst. destruct c; simpl in Hc; try discriminate.
    reflexivity.
Qed.

End EmitOneMore.

(** ** More on the emission of a template job *)

Section EmitTemplateMore.
Import Ir Emit.
Variable job : ComponentCompilationJob.

Lemma emitView_answers view : emitView view <> NoAnswer.
Proof.
  unfold emitView. rewrite !collectStatements_spec.
  destruct (fnName view); [|discriminate].
  destruct (firstNotLowered (create view)); [discriminate|]. simpl.
  destruct (firstNotLowered (update view)); discriminate.
Qed.

(** Whatever the outcome, what [emitChildViews] has pushed are the
    declarations of an initial part of [postorder], all of emittable views;
    the whole of it when it returns. *)
Lemma emitChildViews_outcome depth : forall parent pool r pool',
  emitChildViews depth job parent pool = (r, pool') ->
  exists done rest,
    postorder job depth parent = done ++ rest
    /\ statements pool' = statements pool ++ map viewDecl done
    /\ (r = Returned tt -> rest = [])
    /\ Forall emittable done.
Proof.
  induction depth as [|depth IH]; intros parent pool r pool' H.
  - injection H as <- <-. exists [], []. split; [reflexivity|].
    split; [simpl; now rewrite app_nil_r|]. split; [discriminate | constructor].
  - rewrite emitChildViews_S in H. rewrite postorder_S. revert pool r pool' H.
    induction (units job) as [|u us IHus]; intros pool r pool' H.
    + injection H as <- <-. exists [], []. split; [reflexivity|].
      split; [simpl; now rewrite app_nil_r|]. split; [reflexivity | constructor].
    + simpl in H. unfold bind at 1 in H. simpl flat_map.
      destruct (visit job depth parent u pool) as [r1 pool1] eqn:Ev.
      unfold visit in Ev.
      destruct (isChildOf u parent).
      * unfold bind at 1 in Ev.
        destruct (emitChildViews depth job u pool) as [r0 pool0] eqn:E0.
        apply IH in E0 as (done1 & rest1 & E1 & S1 & R1 & F1).
        destruct r0 as [[]|e|].
        -- specialize (R1 eq_refl). subst rest1. rewrite app_nil_r in E1. subst done1.
           unfold bind, pure_call in Ev.
           destruct (emitView u) as [f|e|] eqn:Ef.
           ++ apply emitView_returned in Ef as [Hem ->].
              unfold push, mutate in Ev. injection Ev as <- <-.
              apply IHus in H as (done2 & rest2 & E2 & S2 & R2 & F2).
              exists ((postorder job depth u ++ [u]) ++ done2), rest2.
              split; [now rewrite E2, app_assoc|].
              split; [|split; [exact R2|]].
              ** simpl in S2. rewrite S2, S1, !map_app, <- !app_assoc. reflexivity.
              ** apply Forall_app. split; [|exact F2].
                 apply Forall_app. split; [exact F1 | now constructor].
           ++ injection Ev as <- <-. injection H as <- <-.
              exists (postorder job depth u), ([u] ++ flat_map
                (fun view => if isChildOf view parent
                             then postorder job depth view ++ [view] else []) us).
              split; [now rewrite <- !app_assoc|].
              split; [exact S1|]. split; [discriminate | exact F1].
           ++ now apply emitView_answers in Ef.
        -- injection Ev as <- <-. injection H as <- <-.
           exists done1, (rest1 ++ [u] ++ flat_map
                (fun view => if isChildOf view parent
                             then postorder job depth view ++ [view] else []) us).
           split; [now rewrite E1, <- !app_assoc|].
           split; [exact S1|]. split; [discriminate | exact F1].
        -- injection Ev as <- <-. injection H as <- <-.
           exists done1, (rest1 ++ [u] ++ flat_map
                (fun view => if isChildOf view parent
                             then postorder job depth view ++ [view] else []) us).
           split; [now rewrite E1, <- !app_assoc|].
           split; [exact S1|]. split; [discriminate | exact F1].
      * injection Ev as <- <-. now apply IHus in H.
Qed.

(** X13. Whatever its outcome, [emitTemplateFn] leaves the statements that
    the pool held in place and only appends: the declarations of an initial
    part of the views below the root, children first, all of them when it
    returns.  When the root view itself cannot be emitted, it throws the
    error of the root and the pool is as it was. *)
Theorem emitTemplateFn_pool_grows (depth : nat) (pool : ConstantPool) :
  (exists done rest,
     postorder job depth (root job) = done ++ rest
     /\ statements (snd (emitTemplateFn depth job pool))
        = statements pool ++ map viewDecl done
     /\ ((exists f, fst (emitTemplateFn depth job pool) = Returned f) -> rest = []))
  /\ (forall e, emitView (root job) = Thrown e ->
        emitTemplateFn depth job pool = (Thrown e, pool)).
Proof.
  split.
  - unfold emitTemplateFn, bind, pure_call.
    destruct (emitView (root job)) as [f|e|] eqn:Ef.
    + destruct (emitChildViews depth job (root job) pool) as [r1 pool1] eqn:Ec.
      apply emitChildViews_outcome in Ec as (done & rest & E & S & R & _).
      exists done, rest. split; [exact E|].
      destruct r1 as [[]|e|]; simpl; (split; [exact S|]).
      * intros _. now apply R.
      * intros [g Hg]. discriminate.
      * intros [g Hg]. discriminate.
    + exists [], (postorder job depth (root job)).
      split; [reflexivity|]. split; [simpl; now rewrite app_nil_r|].
      intros [g Hg]. discriminate.
    + now apply emitView_answers in Ef.
  - intros e Ef. unfold emitTemplateFn, bind, pure_call. now rewrite Ef.
Qed.

End EmitTemplateMore.

Lemma NoDup_flat_map_disjoint {A B} (g : A -> list B) (l : list A) :
  NoDup l ->
  (forall x, In x l -> NoDup (g x)) ->
  (forall x y z, In x l -> In y l -> x <> y -> In z (g x) -> In z (g y) -> False) ->
  NoDup (flat_map g l).
Proof.
  induction 1 as [|x l Hx Hnd IH]; intros Hg Hdis; simpl; [constructor|].
  apply NoDup_app.
  - apply Hg. now left.
  - apply IH.
    + intros y Hy. apply Hg. now right.
    + intros a b z Ha Hb. apply Hdis; now right.
  - intros z Hz Hz'. apply in_flat_map in Hz' as (y & Hy & Hzy).
    apply (Hdis x y z); auto; [now left | now right | intros ->; contradiction].
Qed.

Section EmitTree.
Import Ir Emit.
Variable job : ComponentCompilationJob.
Variable rank : XrefId -> nat.
Variable bound : nat.
Hypothesis Hranked : ranked job rank bound.

Lemma in_postorder_descendant depth : forall p u,
  In u (postorder job depth p) -> descendant job u p.
Proof.
  induction depth as [|depth IH]; intros p u H; [contradiction|].
  rewrite postorder_S in H. apply in_flat_map in H as (c & Hc & Hu).
  destruct (isChildOf c p) eqn:Hchild; [|contradiction].
  apply in_app_iff in Hu as [Hu|[<-|[]]].
  - apply descendant_below with c; auto.
  - now apply descendant_child.
Qed.

Lemma descendant_in d a : descendant job d a -> In d (units job).
Proof. induction 1; assumption. Qed.

Lemma descendant_rank d a : descendant job d a -> rank (xref a) < rank (xref d).
Proof.
  induction 1 as [d a Hd Hc | d c a Hdc IH Hc Hca].
  - exact (@child_rank job rank bound Hranked d a Hd Hc).
  - pose proof (@child_rank job rank bound Hranked c a Hc Hca). lia.
Qed.

Hypothesis Hxrefs : NoDup (map xref (units job)).

Lemma same_xref a b :
  In a (units job) -> In b (units job) -> xref a = xref b -> a = b.
Proof.
  revert Hxrefs. induction (units job) as [|u us IH]; simpl; [contradiction|].
  intros Hnd [Ha|Ha] [Hb|Hb] E; inversion Hnd as [|? ? Hnotin Hnd']; subst.
  - reflexivity.
  - exfalso. apply Hnotin. rewrite E. now apply in_map.
  - exfalso. apply Hnotin. rewrite <- E. now apply in_map.
  - now apply IH.
Qed.

Lemma same_parent d a b :
  In a (units job) -> In b (units job) ->
  isChildOf d a = true -> isChildOf d b = true -> a = b.
Proof.
  intros Ha Hb Hda Hdb. apply same_xref; auto.
  unfold isChildOf in *. destruct (parent d); [|discriminate].
  apply Nat.eqb_eq in Hda, Hdb. congruence.
Qed.

Lemma parent_below d a b :
  In a (units job) -> In b (units job) ->
  isChildOf d a = true -> descendant job d b -> a = b \/ descendant job a b.
Proof.
  intros Ha Hb Hda H. revert Hb.
  induction H as [d b Hd Hdb | d c b Hdc IH Hc Hcb]; intros Hb.
  - left. now apply same_parent with d.
  - right. destruct (IH Hda Hc) as [->|Hac].
    + now apply descendant_child.
    + now apply descendant_below with c.
Qed.

Lemma ancestors_comparable d a b :
  In a (units job) -> In b (units job) ->
  descendant job d a -> descendant job d b ->
  a = b \/ descendant job a b \/ descendant job b a.
Proof.
  intros Ha Hb H. revert b Hb Ha.
  induction H as [d a Hd Hda | d c a Hdc IH Hc Hca]; intros b Hb Ha Hdb.
  - destruct (parent_below Ha Hb Hda Hdb) as [E|E]; auto.
  - destruct (IH b Hb Hc Hdb) as [E|[E|E]].
    + subst c. right; right. now apply descendant_child.
    + destruct (parent_below Ha Hb Hca E) as [F|F]; auto.
    + right; right. now apply descendant_below with c.
Qed.

Lemma siblings_apart p c1 c2 :
  In p (units job) -> In c1 (units job) -> In c2 (units job) ->
  isChildOf c1 p = true -> isChildOf c2 p = true ->
  descendant job c1 c2 -> False.
Proof.
  intros Hp H1 H2 Hc1 Hc2 H.
  pose proof (@child_rank job rank bound Hranked c2 p H2 Hc2) as R2.
  destruct (parent_below Hp H2 Hc1 H) as [E|E].
  - subst c2. lia.
  - apply descendant_rank in E. lia.
Qed.

Lemma postorder_NoDup depth : forall p,
  In p (units job) -> NoDup (postorder job depth p).
Proof.
  assert (Hunits : NoDup (units job)) by exact (NoDup_map_inv _ _ Hxrefs).
  induction depth as [|depth IH]; intros p Hp; [constructor|].
  rewrite postorder_S. apply NoDup_flat_map_disjoint; [exact Hunits | |].
  - intros c Hc. destruct (isChildOf c p); [|constructor].
    apply NoDup_app; [now apply IH | repeat constructor; intros [] |].
    intros z Hz [<-|[]]. apply in_postorder_descendant, descendant_rank in Hz. lia.
  - intros c1 c2 z H1 H2 Hne Hz1 Hz2.
    destruct (isChildOf c1 p) eqn:Hc1; [|contradiction].
    destruct (isChildOf c2 p) eqn:Hc2; [|contradiction].
    apply in_app_iff in Hz1 as [Hz1|[<-|[]]]; apply in_app_iff in Hz2 as [Hz2|[E|[]]].
    + apply in_postorder_descendant in Hz1, Hz2.
      destruct (ancestors_comparable H1 H2 Hz1 Hz2) as [E|[E|E]]; [contradiction | |].
      * exact (siblings_apart Hp H1 H2 Hc1 Hc2 E).
      * exact (siblings_apart Hp H2 H1 Hc2 Hc1 E).
    + subst z. apply in_postorder_descendant in Hz1.
      exact (siblings_apart Hp H2 H1 Hc2 Hc1 Hz1).
    + apply in_postorder_descendant in Hz2.
      exact (siblings_apart Hp H1 H2 Hc1 Hc2 Hz2).
    + now apply Hne.
Qed.

(** In a job whose views form a tree and have distinct xrefs, [postorder]
    from the root lists the views below the root, each once. *)
Lemma postorder_exactly_once (depth : nat) :
  deepEnough rank bound depth (root job) ->
  NoDup (postorder job depth (root job))
  /\ forall view, In view (postorder job depth (root job))
                  <-> descendant job view (root job).
Proof.
  intros Hd. assert (Hroot : In (root job) (units job)) by now left.
  split; [now apply postorder_NoDup|].
  intros view. split; [apply in_postorder_descendant|].
  intros H. exact (@postorder_contains job rank bound Hranked view (root job) H
                     depth Hroot Hd).
Qed.

End EmitTree.

Section EmitTreeOutcome.
Import Ir Emit.
Variable job : ComponentCompilationJob.
Variable rank : XrefId -> nat.
Variable bound : nat.
Hypothesis Hranked : ranked job rank bound.

Lemma emitChildViews_returns_below depth : forall parent pool,
  (forall d, descendant job d parent -> emittable d) ->
  In parent (units job) -> deepEnough rank bound depth parent ->
  exists pool', emitChildViews depth job parent pool = (Returned tt, pool').
Proof.
  induction depth as [|depth IH]; intros parent pool Hall Hin Hd.
  - destruct (@deepEnough_positive job rank bound Hranked _ _ Hin Hd); discriminate.
  - rewrite emitChildViews_S.
    assert (Hsub : incl (units job) (units job)) by apply incl_refl.
    revert pool Hsub. generalize (units job) at 1 3.
    induction l as [|u us IHus]; intros pool Hsub; simpl.
    + eexists; reflexivity.
    + assert (Hu : In u (units job)) by (apply Hsub; now left).
      assert (Ev : exists pool1, visit job depth parent u pool = (Returned tt, pool1)).
      { unfold visit. destruct (isChildOf u parent) eqn:Hc; [|eexists; reflexivity].
        assert (Hbelow : forall d, descendant job d u -> emittable d).
        { intros d Hdu. apply Hall. now apply descendant_below with u. }
        destruct (IH u pool Hbelow Hu
                    (@deepEnough_child job rank bound Hranked _ _ _ Hu Hc Hd))
          as (pool0 & E0).
        unfold bind, pure_call. rewrite E0.
        rewrite (@emitView_emittable u (Hall u (@descendant_child job u parent Hu Hc))).
        eexists; reflexivity. }
      destruct Ev as (pool1 & Ev). unfold bind at 1. rewrite Ev.
      apply IHus. intros x Hx. apply Hsub. now right.
Qed.

(** X15. For a job whose views form a tree, [emitTemplateFn] returns
    exactly when the root view and every view below it are named and
    lowered; views that are not below the root do not matter. *)
Theorem emitTemplateFn_returns_iff (depth : nat) (pool : ConstantPool) :
  deepEnough rank bound depth (root job) ->
  (exists f pool', emitTemplateFn depth job pool = (Returned f, pool'))
  <-> emittable (root job)
      /\ forall view, descendant job view (root job) -> emittable view.
Proof.
  intros Hd. assert (Hroot : In (root job) (units job)) by now left.
  unfold emitTemplateFn, bind, pure_call. split.
  - intros (f & pool' & H).
    destruct (emitView (root job)) as [g|e|] eqn:Eg; try discriminate.
    apply emitView_returned in Eg as [Hem _]. split; [exact Hem|].
    destruct (emitChildViews depth job (root job) pool) as [r pool1] eqn:Ec.
    destruct r as [[]|e|]; try discriminate.
    apply emitChildViews_outcome in Ec as (done & rest & E & _ & R & F).
    specialize (R eq_refl). subst rest. rewrite app_nil_r in E. subst done.
    intros view Hv. rewrite Forall_forall in F. apply F.
    exact (@postorder_contains job rank bound Hranked view (root job) Hv
             depth Hroot Hd).
  - intros [Hem Hall]. rewrite (emitView_emittable Hem).
    destruct (@emitChildViews_returns_below depth (root job) pool Hall Hroot Hd)
      as (pool' & E).
    rewrite E. eexists; eexists; reflexivity.
Qed.

Lemma emitChildViews_answers depth : forall parent pool r pool',
  In parent (units job) -> deepEnough rank bound depth parent ->
  emitChildViews depth job parent pool = (r, pool') -> r <> NoAnswer.
Proof.
  induction depth as [|depth IH]; intros parent pool r pool' Hin Hd H.
  - destruct (@deepEnough_positive job rank bound Hranked _ _ Hin Hd); discriminate.
  - rewrite emitChildViews_S in H.
    assert (Hsub : incl (units job) (units job)) by apply incl_refl.
    revert pool r pool' H Hsub. generalize (units job) at 1 2.
    induction l as [|u us IHus]; intros pool r pool' H Hsub; simpl in H.
    + injection H as <- _. discriminate.
    + assert (Hu : In u (units job)) by (apply Hsub; now left).
      unfold bind at 1 in H.
      destruct (visit job depth parent u pool) as [r1 pool1] eqn:Ev.
      assert (Hr1 : r1 <> NoAnswer).
      { unfold visit in Ev. destruct (isChildOf u parent) eqn:Hc.
        - unfold bind at 1 in Ev.
          destruct (emitChildViews depth job u pool) as [r0 pool0] eqn:E0.
          apply IH in E0;
            [|exact Hu
             |exact (@deepEnough_child job rank bound Hranked _ _ _ Hu Hc Hd)].
          destruct r0 as [[]|e|]; [| injection Ev as <- _; discriminate | congruence].
          unfold bind, pure_call in Ev.
          destruct (emitView u) as [f|e|] eqn:Ef.
          + injection Ev as <- _. discriminate.
          + injection Ev as <- _. discriminate.
          + now apply emitView_answers in Ef.
        - injection Ev as <- _. discriminate. }
      destruct r1 as [[]|e|]; [| injection H as <- _; discriminate | congruence].
      apply (IHus pool1 r pool' H). intros x Hx. apply Hsub. now right.
Qed.

(** X16. For a job whose views form a tree, the recursion of
    [emitChildViews] comes to an end: [emitTemplateFn] returns or throws. *)
Theorem emitTemplateFn_answers (depth : nat) (pool : ConstantPool) :
  deepEnough rank bound depth (root job) ->
  fst (emitTemplateFn depth job pool) <> NoAnswer.
Proof.
  intros Hd. assert (Hroot : In (root job) (units job)) by now left.
  unfold emitTemplateFn, bind, pure_call.
  destruct (emitView (root job)) as [f|e|] eqn:Ef.
  - destruct (emitChildViews depth job (root job) pool) as [r pool1] eqn:Ec.
    apply emitChildViews_answers in Ec; auto.
    destruct r as [[]|e|]; simpl; [discriminate | discriminate | congruence].
  - simpl. discriminate.
  - now apply emitView_answers in Ef.
Qed.

End EmitTreeOutcome.

Lemma nested_job_ranked : ranked nested_job (fun x => x) 3.
Proof.
  intros u Hu. simpl in Hu.
  repeat (destruct Hu as [<-|Hu]; [simpl; split; [lia | intros p E; inversion E; lia]|]).
  contradiction.
Qed.

Lemma nested_job_deepEnough : deepEnough (fun x => x) 3 4 (Ir.root nested_job).
Proof. unfold deepEnough. simpl. lia. Qed.

Lemma nested_job_emittable : Forall emittable (Ir.units nested_job).
Proof. repeat constructor; discriminate. Qed.

Lemma emitTemplateFn_pool_grows_witness :
  Emit.emitTemplateFn 4 job_with_message (Emit.mkPool [O.ReifiedStmt (lit "c")])
  = (Thrown (ViewUnnamed 0), Emit.mkPool [O.ReifiedStmt (lit "c")]).
Proof.
  apply (proj2 (emitTemplateFn_pool_grows job_with_message 4
                  (Emit.mkPool [O.ReifiedStmt (lit "c")]))).
  reflexivity.
Defined.

Lemma nested_job_xrefs : NoDup (map Ir.xref (Ir.units nested_job)).
Proof.
  simpl. repeat (constructor; [simpl; intuition discriminate|]). constructor.
Qed.

(** X14. In a job whose views form a tree and have distinct xrefs, when
    [emitTemplateFn] returns it has appended to the pool one declaration
    for each view below the root and none for any other view: the views
    declared are the views below the root, each once. *)
Theorem emitTemplateFn_declares_once
    (job : Ir.ComponentCompilationJob) (rank : Ir.XrefId -> nat) (bound : nat)
    (depth : nat) (pool pool' : Emit.ConstantPool) (f : O.FunctionExpr) :
  ranked job rank bound ->
  NoDup (map Ir.xref (Ir.units job)) ->
  deepEnough rank bound depth (Ir.root job) ->
  Emit.emitTemplateFn depth job pool = (Returned f, pool') ->
  exists declared,
    Emit.statements pool' = Emit.statements pool ++ map viewDecl declared
    /\ NoDup declared
    /\ forall view, In view declared <-> descendant job view (Ir.root job).
Proof.
  intros Hr Hx Hd H.
  unfold Emit.emitTemplateFn, bind, pure_call in H.
  destruct (Emit.emitView (Ir.root job)) as [g|e|]; try discriminate.
  destruct (Emit.emitChildViews depth job (Ir.root job) pool) as [r pool1] eqn:Ec.
  destruct r as [[]|e|]; try discriminate.
  injection H as _ <-.
  apply emitChildViews_outcome in Ec as (done & rest & E & S & R & _).
  specialize (R eq_refl). subst rest. rewrite app_nil_r in E. subst done.
  exists (postorder job depth (Ir.root job)). split; [exact S|].
  exact (@postorder_exactly_once job rank bound Hr Hx depth Hd).
Qed.

Lemma emitTemplateFn_declares_once_witness :
  exists declared,
    Emit.statements (snd (Emit.emitTemplateFn 4 nested_job (Emit.mkPool [])))
    = map viewDecl declared
    /\ NoDup declared.
Proof.
  destruct (Emit.emitTemplateFn 4 nested_job (Emit.mkPool [])) as [r pool'] eqn:E.
  assert (Hr : exists f, r = Returned f).
  { vm_compute in E. injection E as <- _. eexists; reflexivity. }
  destruct Hr as (f & ->).
  destruct (@emitTemplateFn_declares_once nested_job (fun x => x) 3 4
              (Emit.mkPool []) pool' f nested_job_ranked nested_job_xrefs
              nested_job_deepEnough E)
    as (declared & S & N & _).
  exists declared. split; [exact S | exact N].
Defined.

Lemma emitTemplateFn_returns_iff_witness :
  exists f pool', Emit.emitTemplateFn 4 nested_job (Emit.mkPool []) = (Returned f, pool').
Proof.
  apply (@emitTemplateFn_returns_iff nested_job (fun x => x) 3 nested_job_ranked
           4 (Emit.mkPool []) nested_job_deepEnough).
  pose proof nested_job_emittable as F. rewrite Forall_forall in F.
  split.
  - apply F. now left.
  - intros view Hv. apply F. exact (descendant_in Hv).
Defined.

Lemma emitTemplateFn_answers_witness :
  fst (Emit.emitTemplateFn 4 nested_job (Emit.mkPool [])) <> NoAnswer.
Proof.
  exact (@emitTemplateFn_answers nested_job (fun x => x) 3 nested_job_ranked
           4 (Emit.mkPool []) nested_job_deepEnough).
Defined.

(** ** The two forms of [formatParamValues] *)

Section ListForm.
Import I18n.

Lemma formatValue_head v : exists body, formatValue v = 65533%N :: body.
Proof.
  unfold formatValue, ESCAPE.
  destruct (has (flags v) OpenTag && has (flags v) CloseTag); simpl; eauto.
Qed.

(** X17. The list form cannot be taken for the form of a single value: what
    [formatParamValues] gives for at least one value begins with the
    list-start marker exactly when there are two values or more, and with
    the escape character otherwise. *)
Theorem formatParamValues_forms (values : list I18nParamValue) (s : jsstring) :
  formatParamValues values = Some s ->
  (2 <= List.length values -> exists body, s = 91%N :: body)
  /\ (List.length values = 1 -> exists body, s = 65533%N :: body)
  /\ values <> [].
Proof.
  rewrite formatParamValues_cases.
  destruct values as [|v1 [|v2 rest]]; intros H; [discriminate | |];
    injection H as <-.
  - split; [simpl; lia|]. split; [|discriminate].
    intros _. apply formatValue_head.
  - split; [|split; [simpl; lia | discriminate]].
    intros _. eexists. reflexivity.
Qed.

Lemma formatParamValues_forms_witness :
  exists body,
    LIST_START_MARKER ++ JsString.join LIST_DELIMITER
      (map formatValue [mkValue (NumValue 1) None 0; mkValue (NumValue 2) None 0])
      ++ LIST_END_MARKER
    = 91%N :: body.
Proof.
  apply (proj1 (@formatParamValues_forms
                  [mkValue (NumValue 1) None 0; mkValue (NumValue 2) None 0]
                  _ eq_refl)).
  simpl. lia.
Defined.

End ListForm.
